(** * BFCamera pose overlay: gesture engine, frame compositor and sample
    conversions, embedded from the TypeScript sources.

    JavaScript numbers are IEEE 754 binary64 values; they are modelled with
    the executable specification of floating-point arithmetic of the
    standard library ([spec_float], precision 53, maximal exponent 1024,
    rounding to nearest, ties to even). *)

From Stdlib Require Import ZArith List Bool Lia Ascii String Sorted DecimalString.
From Stdlib Require Import Floats.SpecFloat.
Import ListNotations.

Local Open Scope Z_scope.

(** ** ECMAScript numbers *)

Module JS.

Definition prec : Z := 53.
Definition emax : Z := 1024.

Definition number : Type := spec_float.

Definition NaN : number := S754_nan.
Definition Infinity : number := S754_infinity false.
Definition zero : number := S754_zero false.

Definition add : number -> number -> number := SFadd prec emax.
Definition sub : number -> number -> number := SFsub prec emax.
Definition mul : number -> number -> number := SFmul prec emax.
Definition div : number -> number -> number := SFdiv prec emax.
Definition sqrt : number -> number := SFsqrt prec emax.
Definition neg : number -> number := SFopp.
Definition abs : number -> number := SFabs.

(** [a < b], [a <= b] and [a == b] on numbers: false when either is NaN. *)
Definition ltb : number -> number -> bool := SFltb.
Definition leb : number -> number -> bool := SFleb.
Definition eqb : number -> number -> bool := SFeqb.

(** The number denoted by an integer literal (exact below [2^53]). *)
Definition of_Z (z : Z) : number := binary_normalize prec emax z 0 false.

(** [0 < x] *)
Definition is_positive (x : number) : Prop := ltb (of_Z 0) x = true.

Definition valid (x : number) : bool := valid_binary prec emax x.

Definition is_nan (x : number) : bool :=
  match x with S754_nan => true | _ => false end.

Definition is_zero (x : number) : bool :=
  match x with S754_zero _ => true | _ => false end.

Definition is_finite (x : number) : bool :=
  match x with S754_zero _ | S754_finite _ _ _ => true | _ => false end.

Definition sign_bit (x : number) : bool :=
  match x with
  | S754_zero s | S754_infinity s | S754_finite s _ _ => s
  | S754_nan => false
  end.

(** [Math.max(a, b)]: NaN if either argument is NaN; [+0] is larger
    than [-0]. *)
Definition Math_max (a b : number) : number :=
  if is_nan a || is_nan b then NaN
  else if ltb a b then b
  else if ltb b a then a
  else if is_zero a && is_zero b then S754_zero (sign_bit a && sign_bit b)
  else a.

(** [Math.min(a, b)]: NaN if either argument is NaN; [-0] is smaller
    than [+0]. *)
Definition Math_min (a b : number) : number :=
  if is_nan a || is_nan b then NaN
  else if ltb a b then a
  else if ltb b a then b
  else if is_zero a && is_zero b then S754_zero (sign_bit a || sign_bit b)
  else a.

(** The literals of the sources that are not integers. *)
Definition lit_0_2 : number := Eval vm_compute in div (of_Z 1) (of_Z 5).
Definition lit_0_5 : number := Eval vm_compute in div (of_Z 1) (of_Z 2).

(** [Math.PI], the binary64 value nearest to pi. *)
Definition Math_PI : number := S754_finite false 7074237752028440 (-51).

(** The integer part of a number, rounding toward zero; [0] for NaN,
    zeros and infinities (the first steps of the integer conversions). *)
Definition truncate (x : number) : Z :=
  match x with
  | S754_finite s m e =>
      cond_Zopp s (if 0 <=? e then Zpos m * 2 ^ e else Zpos m / 2 ^ (- e))
  | _ => 0
  end.

(** [ToInt16], the conversion applied by a store into an [Int16Array]. *)
Definition ToInt16 (x : number) : Z :=
  let i := truncate x mod 65536 in
  if 32768 <=? i then i - 65536 else i.

(** [ToUint32], the conversion applied by a store into an
    [unsigned long] attribute such as [canvas.width]. *)
Definition ToUint32 (x : number) : Z := truncate x mod 4294967296.



(** Structural equality of numbers, to check equations by evaluation. *)
Definition same (a b : number) : bool :=
  match a, b with
  | S754_zero s, S754_zero s' => Bool.eqb s s'
  | S754_infinity s, S754_infinity s' => Bool.eqb s s'
  | S754_nan, S754_nan => true
  | S754_finite s m e, S754_finite s' m' e' =>
      Bool.eqb s s' && Pos.eqb m m' && Z.eqb e e'
  | _, _ => false
  end.

End JS.

Import JS.

(** ** The host's [Math] builtins

    [Math.hypot] and [Math.atan2] are provided by the JavaScript engine;
    ECMAScript fixes their results on special values and leaves the others
    implementation-approximated.  The development is parametric in them. *)

Class MathHost : Type := {
  Math_hypot : number -> number -> number;
  Math_atan2 : number -> number -> number
}.

(** ** src/types.ts *)

Module Touch.
(** [TouchState] *)
Record t : Type := mk { id : Z; x : number; y : number }.
End Touch.

Module Point.
(** The anonymous [{ x: number; y: number }] of centers and midpoints. *)
Record t : Type := mk { x : number; y : number }.
End Point.

Module Transform.
(** [TransformState] *)
Record t : Type := mk { x : number; y : number; scale : number; rotation : number }.
End Transform.

(** src/constants.ts *)
Definition INITIAL_TRANSFORM : Transform.t :=
  Transform.mk (of_Z 0) (of_Z 0) (of_Z 1) (of_Z 0).

(** ** src/utils/geometry.ts *)

Section Geometry.
Context {host : MathHost}.

Definition getDistance (p1 p2 : Touch.t) : number :=
  Math_hypot (sub (Touch.x p2) (Touch.x p1)) (sub (Touch.y p2) (Touch.y p1)).

Definition getAngle (p1 p2 : Touch.t) : number :=
  div (mul (Math_atan2 (sub (Touch.y p2) (Touch.y p1))
                       (sub (Touch.x p2) (Touch.x p1)))
           (of_Z 180))
      Math_PI.

Definition getMidpoint (p1 p2 : Touch.t) : Point.t :=
  Point.mk (div (add (Touch.x p1) (Touch.x p2)) (of_Z 2))
           (div (add (Touch.y p1) (Touch.y p2)) (of_Z 2)).

End Geometry.

(** ** The insertion-ordered [Map<number, TouchState>] of active touches *)

Module TouchMap.

Definition t : Type := list (Z * Touch.t).

Definition empty : t := [].

(** [map.set(k, v)]: an existing key keeps its position. *)
Fixpoint set (k : Z) (v : Touch.t) (m : t) : t :=
  match m with
  | [] => [(k, v)]
  | (k', v') :: rest =>
      if k =? k' then (k, v) :: rest else (k', v') :: set k v rest
  end.

(** [Array.from(map.values())] *)
Definition values (m : t) : list Touch.t := map snd m.

Definition size (m : t) : nat := List.length m.

End TouchMap.

(** ** The [WireframeOverlay] component (second part of
    src/components/PoseSelector.tsx)

    The handlers run to completion one event at a time, and the parent
    re-renders the component with the published transform between two
    events: the [transform] prop a handler reads is the last one
    published. *)

(** A DOM [Touch] of [event.touches]. *)
Record DomTouch : Type := {
  identifier : Z;
  clientX : number;
  clientY : number
}.

(** A DOM touch at integer client coordinates. *)
Definition touchAt (i cx cy : Z) : DomTouch :=
  {| identifier := i; clientX := of_Z cx; clientY := of_Z cy |}.

(** The reference captured by [handleTouchStart]. *)
Record GestureData : Type := {
  distance : number;
  angle : number;
  center : Point.t
}.

(** The component's refs, with the [transform] prop owned by the parent
    ([onTransformChange] is the parent's state setter). *)
Record Overlay : Type := {
  activeTouches : TouchMap.t;
  initialTransform : Transform.t;
  initialGestureData : option GestureData;
  transform : Transform.t
}.

Definition mount (tr : Transform.t) : Overlay :=
  {| activeTouches := TouchMap.empty;
     initialTransform := tr;
     initialGestureData := None;
     transform := tr |}.

Definition updateTouches (touches : list DomTouch) : TouchMap.t :=
  fold_left
    (fun m t =>
       TouchMap.set (identifier t)
         (Touch.mk (identifier t) (clientX t) (clientY t)) m)
    touches TouchMap.empty.

Definition onTransformChange (newTransform : Transform.t) (st : Overlay) : Overlay :=
  {| activeTouches := activeTouches st;
     initialTransform := initialTransform st;
     initialGestureData := initialGestureData st;
     transform := newTransform |}.

(** [Math.max(0.2, Math.min(s, 5))] *)
Definition clampScale (s : number) : number :=
  Math_max lit_0_2 (Math_min s (of_Z 5)).

Section Gestures.
Context {host : MathHost}.

(** [activeTouches.current.size === 2] holds exactly when the values of
    the map are two points, [points[0]] and [points[1]]. *)
Definition handleTouchStart (touches : list DomTouch) (st : Overlay) : Overlay :=
  let active := updateTouches touches in
  let initialTrans := transform st in
  let data :=
    match TouchMap.values active with
    | [p0; p1] =>
        Some {| distance := getDistance p0 p1;
                angle := getAngle p0 p1;
                center := getMidpoint p0 p1 |}
    | [point] =>
        Some {| distance := of_Z 0;
                angle := of_Z 0;
                center := Point.mk (Touch.x point) (Touch.y point) |}
    | _ => initialGestureData st
    end in
  {| activeTouches := active;
     initialTransform := initialTrans;
     initialGestureData := data;
     transform := transform st |}.

(** The transform published by the two-touch branch of
    [handleTouchMove]. *)
Definition pinchTransform (initialTrans : Transform.t) (initial : GestureData)
    (newDist newAngle : number) (newCenter : Point.t) : Transform.t :=
  let scaleMultiplier := div newDist (distance initial) in
  let rotationDelta := sub newAngle (angle initial) in
  let dx := sub (Point.x newCenter) (Point.x (center initial)) in
  let dy := sub (Point.y newCenter) (Point.y (center initial)) in
  Transform.mk
    (add (Transform.x initialTrans) dx)
    (add (Transform.y initialTrans) dy)
    (clampScale (mul (Transform.scale initialTrans) scaleMultiplier))
    (add (Transform.rotation initialTrans) rotationDelta).

(** The transform published by the one-touch branch. *)
Definition panTransform (current initialTrans : Transform.t)
    (initial : GestureData) (touch : Touch.t) : Transform.t :=
  let dx := sub (Touch.x touch) (Point.x (center initial)) in
  let dy := sub (Touch.y touch) (Point.y (center initial)) in
  Transform.mk
    (add (Transform.x initialTrans) dx)
    (add (Transform.y initialTrans) dy)
    (Transform.scale current)
    (Transform.rotation current).

Definition handleTouchMove (touches : list DomTouch) (st : Overlay) : Overlay :=
  let active := updateTouches touches in
  let st1 :=
    {| activeTouches := active;
       initialTransform := initialTransform st;
       initialGestureData := initialGestureData st;
       transform := transform st |} in
  match TouchMap.values active, initialGestureData st with
  | [t0; t1], Some initial =>
      onTransformChange
        (pinchTransform (initialTransform st) initial
           (getDistance t0 t1) (getAngle t0 t1) (getMidpoint t0 t1))
        st1
  | [touch], Some initial =>
      onTransformChange
        (panTransform (transform st) (initialTransform st) initial touch)
        st1
  | _, _ => st1
  end.

Definition handleTouchEnd (st : Overlay) : Overlay :=
  {| activeTouches := TouchMap.empty;
     initialTransform := initialTransform st;
     initialGestureData := None;
     transform := transform st |}.

(** The touch events the overlay's [div] is wired to; each carries the
    list of touches still on the surface ([event.touches]). *)
Inductive TouchEvent : Type :=
| onTouchStart (touches : list DomTouch)
| onTouchMove (touches : list DomTouch)
| onTouchEnd (touches : list DomTouch)
| onTouchCancel (touches : list DomTouch).

Definition dispatch (st : Overlay) (e : TouchEvent) : Overlay :=
  match e with
  | onTouchStart touches => handleTouchStart touches st
  | onTouchMove touches => handleTouchMove touches st
  | onTouchEnd _ => handleTouchEnd st
  | onTouchCancel _ => handleTouchEnd st
  end.

Definition run (st : Overlay) (events : list TouchEvent) : Overlay :=
  fold_left dispatch events st.

End Gestures.

(** ** A reference host

    An engine in the letter of ECMAScript: the special values of
    [Math.hypot] and [Math.atan2] are the ones the standard lists, the
    remaining results are computed in binary64 arithmetic.  It instantiates
    the development on concrete touches. *)

Module RefHost.

Definition is_inf (x : number) : bool :=
  match x with S754_infinity _ => true | _ => false end.

Definition hypot (x y : number) : number :=
  if is_inf x || is_inf y then Infinity
  else if is_nan x || is_nan y then NaN
  else if is_zero x && is_zero y then zero
  else sqrt (add (mul x x) (mul y y)).

Definition half_PI : number := Eval vm_compute in div Math_PI (of_Z 2).
Definition quarter_PI : number := Eval vm_compute in div Math_PI (of_Z 4).
Definition three_quarter_PI : number :=
  Eval vm_compute in div (mul (of_Z 3) Math_PI) (of_Z 4).

(** [1/k - t2 * (1/(k+2) - t2 * (...))], the alternating series of the
    arctangent in Horner form. *)
Fixpoint atan_horner (n : nat) (k : Z) (t2 : number) : number :=
  match n with
  | O => div (of_Z 1) (of_Z k)
  | S n' => sub (div (of_Z 1) (of_Z k)) (mul t2 (atan_horner n' (k + 2) t2))
  end.

Definition atan_small (t : number) : number :=
  mul t (atan_horner 13 1 (mul t t)).

(** [tan (a / 2)] from [tan a]. *)
Definition tan_half (t : number) : number :=
  div t (add (of_Z 1) (sqrt (add (of_Z 1) (mul t t)))).

(** The arctangent on [[0, 1]]. *)
Definition atan_unit (t : number) : number :=
  mul (of_Z 4) (atan_small (tan_half (tan_half t))).

(** The arctangent of a number that is not negative. *)
Definition atan_pos (t : number) : number :=
  if ltb (of_Z 1) t then sub half_PI (atan_unit (div (of_Z 1) t))
  else atan_unit t.

(** [Math.atan2(|y|, x)] *)
Definition atan2_upper (ay x : number) : number :=
  match ay, x with
  | S754_nan, _ | _, S754_nan => NaN
  | S754_infinity _, S754_infinity s =>
      if s then three_quarter_PI else quarter_PI
  | S754_infinity _, _ => half_PI
  | S754_zero _, _ => if sign_bit x then Math_PI else zero
  | S754_finite _ _ _, S754_infinity s => if s then Math_PI else zero
  | S754_finite _ _ _, S754_zero _ => half_PI
  | S754_finite _ _ _, S754_finite s _ _ =>
      let a := atan_pos (div ay (abs x)) in
      if s then sub Math_PI a else a
  end.

Definition atan2 (y x : number) : number :=
  let r := atan2_upper (abs y) x in
  if sign_bit y then neg r else r.

#[export] Instance host : MathHost :=
  {| Math_hypot := hypot; Math_atan2 := atan2 |}.

End RefHost.

(** ** src/App.tsx: the transparency post-process *)


Definition is_byte (z : Z) : Prop := 0 <= z <= 255.





(** ** src/App.tsx: microphone samples to 16-bit PCM *)

(** [Math.max(-1, Math.min(1, x))] *)
Definition clampSample (x : number) : number :=
  Math_max (of_Z (-1)) (Math_min (of_Z 1) x).

(** The body of the loop of [processor.onaudioprocess]. *)
Definition scaleSample (x : number) : number :=
  mul (clampSample x) (of_Z 32767).

(** The [Int16Array] [pcmData] that [processor.onaudioprocess] fills
    from [inputData]. *)
Definition pcmData (inputData : list number) : list Z :=
  map (fun x => ToInt16 (scaleSample x)) inputData.

(** ** src/App.tsx: the frame composited for the coach *)

Inductive FacingMode : Type := user | environment.

Inductive ImageSource : Type := videoElement | poseImage.

(** The calls made on the 2D context of the frame's canvas. *)
Inductive CanvasOp : Type :=
| drawImage (src : ImageSource) (dx dy dw dh : number)
| save
| restore
| translate (x y : number)
| rotate (a : number)
| scale (sx sy : number)
| setFont (f : string)
| setFillStyle (c : string)
| setShadowColor (c : string)
| setShadowBlur (b : number)
| fillText (text : string) (x y : number).

(** What the interval callback reads: the video element, the window, the
    refs holding the current transform and pose image, and the camera the
    app is using. *)
Record Viewfinder : Type := {
  facingMode : FacingMode;
  videoRef : option (Z * Z);          (* videoWidth, videoHeight *)
  context2d : bool;                   (* canvas.getContext('2d') succeeded *)
  innerWidth : number;
  innerHeight : number;
  poseTransformRef : Transform.t;
  poseImageRef : bool                 (* a pose image is loaded *)
}.

(** The camera switch of the top controls: only [facingMode] changes. *)
Definition setFacingMode (m : FacingMode) (vf : Viewfinder) : Viewfinder :=
  {| facingMode := m;
     videoRef := videoRef vf;
     context2d := context2d vf;
     innerWidth := innerWidth vf;
     innerHeight := innerHeight vf;
     poseTransformRef := poseTransformRef vf;
     poseImageRef := poseImageRef vf |}.

Record Frame : Type := {
  width : Z;
  height : Z;
  ops : list CanvasOp
}.

(** The wireframe drawn over the video, reprojected from screen to canvas
    pixels. *)
Definition compositeWireframe (vf : Viewfinder) (videoW videoH canvasW canvasH : Z)
    : list CanvasOp :=
  let currentPoseTransform := poseTransformRef vf in
  let screenW := innerWidth vf in
  let screenH := innerHeight vf in
  let scaleX := div screenW (of_Z videoW) in
  let scaleY := div screenH (of_Z videoH) in
  let scaleCover := Math_max scaleX scaleY in
  let canvasScaleFactor := div (of_Z canvasW) (of_Z videoW) in
  let conversionRatio := mul (div (of_Z 1) scaleCover) canvasScaleFactor in
  let drawW := mul screenW conversionRatio in
  let drawH := mul screenH conversionRatio in
  [ save;
    translate (div (of_Z canvasW) (of_Z 2)) (div (of_Z canvasH) (of_Z 2));
    translate (mul (Transform.x currentPoseTransform) conversionRatio)
              (mul (Transform.y currentPoseTransform) conversionRatio);
    rotate (div (mul (Transform.rotation currentPoseTransform) Math_PI) (of_Z 180));
    scale (Transform.scale currentPoseTransform) (Transform.scale currentPoseTransform);
    drawImage poseImage (div (neg drawW) (of_Z 2)) (div (neg drawH) (of_Z 2)) drawW drawH;
    restore ].

(** The left/right markers. *)
Definition drawMarkers (canvasW canvasH : Z) : list CanvasOp :=
  [ setFont "bold 40px Arial";
    setFillStyle "rgba(255, 255, 255, 0.8)";
    setShadowColor "black";
    setShadowBlur (of_Z 4);
    fillText "R" (of_Z 20) (div (of_Z canvasH) (of_Z 2));
    fillText "L" (sub (of_Z canvasW) (of_Z 50)) (div (of_Z canvasH) (of_Z 2)) ].

(** One tick of the video interval of [startLiveSession]: the frame sent
    to the coach, if any. *)
Definition videoTick (vf : Viewfinder) : option Frame :=
  match videoRef vf with
  | None => None
  | Some (videoW, videoH) =>
      let canvasW := ToUint32 (mul (of_Z videoW) lit_0_5) in
      let canvasH := ToUint32 (mul (of_Z videoH) lit_0_5) in
      if context2d vf then
        Some {| width := canvasW;
                height := canvasH;
                ops := drawImage videoElement (of_Z 0) (of_Z 0)
                         (of_Z canvasW) (of_Z canvasH)
                       :: (if poseImageRef vf
                           then compositeWireframe vf videoW videoH canvasW canvasH
                           else [])
                       ++ drawMarkers canvasW canvasH |}
      else None
  end.

(** The text drawn on a frame, with its position. *)
Definition markersOf (f : Frame) : list (string * number * number) :=
  flat_map (fun op => match op with
                      | fillText t x y => [(t, x, y)]
                      | _ => []
                      end) (ops f).

(** ** Checks by enumeration and the scenarios of the claims *)

(** [f 0 && f 1 && ... && f n] *)
Fixpoint forall_upto (n : nat) (f : Z -> bool) : bool :=
  match n with
  | O => f 0
  | S k => f (Z.of_nat (S k)) && forall_upto k f
  end.

(** The pinch of the spec's scenario: fingers at [(0,0)] and [(100,0)],
    then at [(0,0)] and [(200,0)]. *)
Definition pinchStart : list DomTouch := [touchAt 0 0 0; touchAt 1 100 0].
Definition pinchMove : list DomTouch := [touchAt 0 0 0; touchAt 1 200 0].

(** A phone in portrait showing a 1280x720 camera, with a pose loaded. *)
Definition hdViewfinder (m : FacingMode) : Viewfinder :=
  {| facingMode := m;
     videoRef := Some (1280, 720);
     context2d := true;
     innerWidth := of_Z 390;
     innerHeight := of_Z 844;
     poseTransformRef := INITIAL_TRANSFORM;
     poseImageRef := true |}.

(** ** Further definitions: gesture traces *)

(** The [TouchState] that [updateTouches] stores for a DOM touch. *)
Definition touchState (t : DomTouch) : Touch.t :=
  Touch.mk (identifier t) (clientX t) (clientY t).

Definition isMove (e : TouchEvent) : bool :=
  match e with onTouchMove _ => true | _ => false end.

(** A scale that went through the clamp of [handleTouchMove]: within
    [[0.2, 5]], or NaN. *)
Definition scaleClamped (s : number) : Prop :=
  is_nan s = true \/ (leb lit_0_2 s = true /\ leb s (of_Z 5) = true).

(** ** src/components/Controls.tsx: the zoom slider *)

Module ZoomSlider.

(** The decimal literals of the component. *)
Definition lit_0_01 : number := Eval vm_compute in div (of_Z 1) (of_Z 100).
Definition lit_0_1 : number := Eval vm_compute in div (of_Z 1) (of_Z 10).

Record Props : Type := {
  zoomLevel : number;
  minZoom : number;
  maxZoom : number
}.

(** The state of one render: the [isScrubbing] state and the refs. *)
Record State : Type := {
  isScrubbing : bool;
  startX : number;
  startZoom : number;
  lastHapticZoom : number;
  scrubTimeoutRef : option Z
}.

(** What a handler asks of its environment, in order. *)
Inductive Effect : Type :=
| setIsScrubbing (b : bool)
| clearTimeout (id : Z)
| setTimeout (id : Z) (ms : Z)          (* runs [setIsScrubbing(false)] *)
| onZoomChange (z : option number)      (* [None] is [undefined] *)
| vibrate (ms : Z).

(** [z >= minZoom && z <= maxZoom] *)
Definition inRange (p : Props) (z : number) : bool :=
  leb (minZoom p) z && leb z (maxZoom p).

(** SameValueZero on numbers, the equality of [Array.prototype.includes]. *)
Definition sameValueZero (a b : number) : bool :=
  eqb a b || (is_nan a && is_nan b).

Definition includes (l : list number) (x : number) : bool :=
  existsb (sameValueZero x) l.

(** [Array.prototype.sort] with the comparator [(a, b) => a - b], as a
    stable insertion sort: [x] goes after [y] when [x - y > 0]. *)
Fixpoint sortInsert (x : number) (l : list number) : list number :=
  match l with
  | [] => [x]
  | y :: rest =>
      if ltb (of_Z 0) (sub x y) then y :: sortInsert x rest else x :: l
  end.

Definition sort (l : list number) : list number :=
  fold_right sortInsert [] l.

Definition cyclePresets (p : Props) : list number :=
  let presets := filter (inRange p) [lit_0_5; of_Z 1; of_Z 2; of_Z 5] in
  let presets :=
    if negb (includes presets (of_Z 1))
       && leb (minZoom p) (of_Z 1) && leb (of_Z 1) (maxZoom p)
    then presets ++ [of_Z 1] else presets in
  sort presets.

(** The handlers return [None] where the source throws ([e.touches[0]] of
    an event without touches). *)
Definition handleTouchStart (p : Props) (touches : list DomTouch) (st : State)
    : option State :=
  match touches with
  | [] => None
  | t :: _ =>
      Some {| isScrubbing := isScrubbing st;
              startX := clientX t;
              startZoom := zoomLevel p;
              lastHapticZoom := lastHapticZoom st;
              scrubTimeoutRef := scrubTimeoutRef st |}
  end.

(** [canVibrate] is the truth of [navigator.vibrate]. *)
Definition handleTouchMove (canVibrate : bool) (p : Props)
    (touches : list DomTouch) (st : State) : option (State * list Effect) :=
  match touches with
  | [] => None
  | t :: _ =>
      let currentX := clientX t in
      let deltaX := sub currentX (startX st) in
      let start :=
        if negb (isScrubbing st) && ltb (of_Z 5) (abs deltaX)
        then setIsScrubbing true
             :: match scrubTimeoutRef st with
                | Some id => [clearTimeout id]
                | None => []
                end
        else [] in
      if isScrubbing st then
        let zoomDelta := mul deltaX lit_0_01 in
        let newZoom := add (startZoom st) zoomDelta in
        let newZoom := Math_max (minZoom p) (Math_min (maxZoom p) newZoom) in
        let haptic := ltb lit_0_1 (abs (sub newZoom (lastHapticZoom st))) in
        Some ({| isScrubbing := isScrubbing st;
                 startX := startX st;
                 startZoom := startZoom st;
                 lastHapticZoom := if haptic then newZoom else lastHapticZoom st;
                 scrubTimeoutRef := scrubTimeoutRef st |},
              start ++ onZoomChange (Some newZoom)
                    :: (if haptic && canVibrate then [vibrate 5] else []))
      else Some (st, start)
  end.

(** [cyclePresets.find(p => p > zoomLevel) || cyclePresets[0]]; a preset
    that is found is not [0] or NaN, so [||] keeps it. *)
Definition nextPreset (p : Props) : option number :=
  match find (fun z => ltb (zoomLevel p) z) (cyclePresets p) with
  | Some z => if is_zero z || is_nan z then hd_error (cyclePresets p) else Some z
  | None => hd_error (cyclePresets p)
  end.

(** [timerId] is the identifier the browser returns from [setTimeout]. *)
Definition handleTouchEnd (canVibrate : bool) (timerId : Z) (p : Props) (st : State)
    : State * list Effect :=
  if negb (isScrubbing st) then
    (st, onZoomChange (nextPreset p) :: (if canVibrate then [vibrate 10] else []))
  else
    ({| isScrubbing := isScrubbing st;
        startX := startX st;
        startZoom := startZoom st;
        lastHapticZoom := lastHapticZoom st;
        scrubTimeoutRef := Some timerId |},
     [setTimeout timerId 300]).

(** The zoom levels a list of effects hands to [onZoomChange]. *)
Definition zoomChanges (effects : list Effect) : list (option number) :=
  flat_map (fun e => match e with onZoomChange z => [z] | _ => [] end) effects.

End ZoomSlider.

(** A number that [||] keeps: neither a zero nor NaN. *)
Definition truthy (z : number) : Prop := is_zero z || is_nan z = false.

Definition ascending (l : list number) : Prop :=
  StronglySorted (fun a b => leb a b = true) l.


(** ** src/App.tsx: the gallery *)

Module Gallery.

Record State : Type := {
  gallery : list string;
  isGalleryOpen : bool;
  selectedImageIndex : option Z
}.

Definition initial : State :=
  {| gallery := []; isGalleryOpen := false; selectedImageIndex := None |}.

(** [array.splice(start, deleteCount)] with integer arguments: what is left
    of the array. *)
Definition splice {A : Type} (l : list A) (start deleteCount : Z) : list A :=
  let len := Z.of_nat (List.length l) in
  let actualStart := if start <? 0 then Z.max (len + start) 0 else Z.min start len in
  let actualDeleteCount := Z.min (Z.max deleteCount 0) (len - actualStart) in
  firstn (Z.to_nat actualStart) l
  ++ skipn (Z.to_nat (actualStart + actualDeleteCount)) l.

Definition deletePhoto (index : Z) (st : State) : State :=
  let newGallery := splice (gallery st) index 1 in
  if Z.of_nat (List.length newGallery) =? 0 then
    {| gallery := newGallery; isGalleryOpen := false; selectedImageIndex := None |}
  else
    match selectedImageIndex st with
    | Some selected =>
        {| gallery := newGallery;
           isGalleryOpen := isGalleryOpen st;
           selectedImageIndex :=
             Some (Z.min selected (Z.of_nat (List.length newGallery) - 1)) |}
    | None =>
        {| gallery := newGallery;
           isGalleryOpen := isGalleryOpen st;
           selectedImageIndex := None |}
    end.

(** [gallery[index]]: [None] is [undefined]. *)
Definition at_index (l : list string) (index : Z) : option string :=
  if index <? 0 then None else nth_error l (Z.to_nat index).

(** What [renderGallery] puts on screen. *)
Inductive View : Type :=
| hidden
| review (src : option string)
| grid (thumbnails : list string).

Definition renderGallery (st : State) : View :=
  if negb (isGalleryOpen st) then hidden
  else match selectedImageIndex st with
       | Some selected => review (at_index (gallery st) selected)
       | None => grid (gallery st)
       end.

(** What changes the gallery state: the gallery button of the controls,
    the buttons of the view on screen, and a capture that completes. *)
Inductive Action : Type :=
| onOpenGallery
| closeGallery
| selectImage (idx : Z)
| backToGrid
| deleteSelected
| photoTaken (dataUrl : string).

Definition step (st : State) (a : Action) : State :=
  match a, renderGallery st with
  | onOpenGallery, _ =>
      {| gallery := gallery st; isGalleryOpen := true;
         selectedImageIndex := selectedImageIndex st |}
  | photoTaken dataUrl, _ =>
      {| gallery := gallery st ++ [dataUrl]; isGalleryOpen := isGalleryOpen st;
         selectedImageIndex := selectedImageIndex st |}
  | closeGallery, grid _ =>
      {| gallery := gallery st; isGalleryOpen := false;
         selectedImageIndex := selectedImageIndex st |}
  | selectImage idx, grid thumbnails =>
      (* one thumbnail per index of [gallery.map] *)
      if (0 <=? idx) && (idx <? Z.of_nat (List.length thumbnails)) then
        {| gallery := gallery st; isGalleryOpen := isGalleryOpen st;
           selectedImageIndex := Some idx |}
      else st
  | backToGrid, review _ =>
      {| gallery := gallery st; isGalleryOpen := isGalleryOpen st;
         selectedImageIndex := None |}
  | deleteSelected, review _ =>
      match selectedImageIndex st with
      | Some selected => deletePhoto selected st
      | None => st
      end
  | _, _ => st   (* the button is not on screen *)
  end.

Definition run (st : State) (actions : list Action) : State :=
  fold_left step actions st.

(** The reviewed index designates a photo, and a closed gallery reviews
    nothing. *)
Definition consistent (st : State) : Prop :=
  (forall selected, selectedImageIndex st = Some selected ->
     0 <= selected < Z.of_nat (List.length (gallery st)))
  /\ (isGalleryOpen st = false -> selectedImageIndex st = None).

End Gallery.

(** ** src/App.tsx: taking a photo *)

Module Capture.

(** What [capturePhoto] reads. *)
Record Camera : Type := {
  videoRef : option (Z * Z);     (* videoWidth, videoHeight *)
  canvasRef : bool;
  stream : bool;
  flashEnabled : bool;
  facingMode : FacingMode;
  context2d : bool;              (* canvas.getContext('2d') succeeded *)
  torchOn : bool;                (* applyConstraints({torch: true}) resolves *)
  torchOff : bool                (* applyConstraints({torch: false}) resolves *)
}.

(** What it does, in order. [applyTorch on ok] is a request to the video
    track with its outcome; a rejected request is caught and logged. *)
Inductive Effect : Type :=
| applyTorch (on ok : bool)
| wait (ms : Z)
| setIsFlashing (flashing : bool)
| setIsFlashingAfter (ms : Z) (flashing : bool)
| setGallery_append (photo : Frame).

Definition capturePhoto (cam : Camera) : list Effect :=
  match videoRef cam with
  | None => []
  | Some (videoWidth, videoHeight) =>
      if negb (canvasRef cam) || negb (stream cam) then [] else
      let wantsTorch :=
        flashEnabled cam
        && match facingMode cam with environment => true | user => false end in
      let didEnableTorch := wantsTorch && torchOn cam in
      (if wantsTorch
       then applyTorch true (torchOn cam)
            :: (if torchOn cam then [wait 200] else [])
       else [])
      ++ [setIsFlashing true; setIsFlashingAfter 150 false]
      ++ (if context2d cam
          then [setGallery_append
                  {| width := videoWidth;
                     height := videoHeight;
                     ops := match facingMode cam with
                            | user => [translate (of_Z videoWidth) (of_Z 0);
                                       scale (of_Z (-1)) (of_Z 1)]
                            | environment => []
                            end
                            ++ [drawImage videoElement (of_Z 0) (of_Z 0)
                                  (of_Z videoWidth) (of_Z videoHeight)] |}]
          else [])
      ++ (if didEnableTorch then [applyTorch false (torchOff cam)] else [])
  end.


(** The torch after a run of effects, from its state before: a request
    that resolves sets it, a rejected one leaves it. *)
Definition torchAfter (lit : bool) (effects : list Effect) : bool :=
  fold_left (fun lit e => match e with
                          | applyTorch on true => on
                          | _ => lit
                          end) effects lit.



End Capture.

(** ** Numbers that are integers or halves *)

(** The value of a number in units of [2^-64], for the numbers whose
    exponent is at least [-64]. *)
Definition scaled (x : number) : Z :=
  match x with
  | S754_finite s m e => cond_Zopp s (Zpos m * 2 ^ (e + 64))
  | _ => 0
  end.

(** [+0], or a positive normal number that is a multiple of [2^-64]. *)
Definition dyadic (x : number) : Prop :=
  match x with
  | S754_zero false => True
  | S754_finite false m e => Zpos (digits2_pos m) = 53 /\ -64 <= e <= 900
  | _ => False
  end.

(** ** src/App.tsx: the voice of the coach *)

Module Playback.

(** [view.getInt16(byteOffset, true)]: the little-endian signed 16-bit
    integer at an integer offset; [None] is the [RangeError] of a read past
    the end of the view. *)
Definition getInt16 (view : list Z) (byteOffset : Z) : option Z :=
  if (byteOffset <? 0) || (Z.of_nat (List.length view) <? byteOffset + 2) then None
  else
    let lo := nth (Z.to_nat byteOffset) view 0 in
    let hi := nth (Z.to_nat byteOffset + 1) view 0 in
    let unsigned := lo + 256 * hi in
    Some (if 32768 <=? unsigned then unsigned - 65536 else unsigned).

(** The conversion applied by a store into a [Float32Array]: rounding to
    binary32, read back as a number. *)
Definition fround (x : number) : number :=
  match x with
  | S754_finite s m e =>
      match binary_round 24 128 s m e with
      | S754_finite s' m' e' => binary_round prec emax s' m' e'
      | rounded => rounded
      end
  | _ => x
  end.

(** [array[i] = v] on a typed array: a store outside the array is ignored. *)
Fixpoint store (i : nat) (v : number) (array : list number) : list number :=
  match array, i with
  | [], _ => []
  | _ :: rest, O => v :: rest
  | a :: rest, S j => a :: store j v rest
  end.

Inductive Error : Type := RangeError | NotSupportedError | InvalidCharacterError.

Inductive Completion (A : Type) : Type :=
| normal (value : A)
| throw (error : Error).
Arguments normal {A} value.
Arguments throw {A} error.

(** [window.atob], a builtin of the host: the binary string that a base64
    text encodes, one character per byte, or the [InvalidCharacterError] of
    a text that is not base64. *)
Class Base64Host : Type := {
  atob : string -> Completion string
}.

(** [base64ToArrayBuffer]: the bytes of [atob(base64)], each the character
    code at its index. *)
Definition base64ToArrayBuffer {host : Base64Host} (base64 : string)
    : Completion (list Z) :=
  match atob base64 with
  | normal binaryString =>
      normal (map (fun c => Z.of_N (N_of_ascii c)) (list_ascii_of_string binaryString))
  | throw error => throw error
  end.

(** The [for] loop over the samples, from index [i]; [None] when [fuel]
    iterations do not reach its end. *)
Fixpoint decodeLoop (fuel : nat) (view : list Z) (numSamples : number) (i : Z)
    (float32Data : list number) : option (Completion (list number)) :=
  match fuel with
  | O => None
  | S fuel' =>
      if ltb (of_Z i) numSamples then
        match getInt16 view (truncate (mul (of_Z i) (of_Z 2))) with
        | None => Some (throw RangeError)
        | Some int16 =>
            decodeLoop fuel' view numSamples (i + 1)
              (store (Z.to_nat i) (fround (div (of_Z int16) (of_Z 32768)))
                 float32Data)
        end
      else Some (normal float32Data)
  end.

(** The samples of one chunk of audio. *)
Definition decode (fuel : nat) (view : list Z)
    : option (Completion (list number)) :=
  let numSamples := div (of_Z (Z.of_nat (List.length view))) (of_Z 2) in
  let float32Data := repeat zero (Z.to_nat (truncate numSamples)) in
  decodeLoop fuel view numSamples 0 float32Data.

(** A source node started on the output context. *)
Record Source : Type := {
  channelData : list number;
  startTime : number
}.

(** [audioBuffer.duration] at 24 kHz. *)
Definition duration (channel : list number) : number :=
  div (of_Z (Z.of_nat (List.length channel))) (of_Z 24000).

(** The audio part of [onmessage]. [audioData] is
    [parts?.[0]?.inlineData?.data] and [audioContextRef] the output context,
    given by its [currentTime] ([None] is [null]); the block runs only when
    both are truthy. The result is the source started, if any, and the value
    of [nextAudioStartTimeRef] afterwards. [createBuffer] refuses a buffer
    of no sample. *)
Definition playChunk {host : Base64Host} (fuel : nat) (audioData : option string)
    (audioContextRef : option number) (nextAudioStartTimeRef : number)
    : option (Completion (option Source * number)) :=
  match audioData, audioContextRef with
  | Some (String c rest), Some currentTime =>
      match base64ToArrayBuffer (String c rest) with
      | throw error => Some (throw error)
      | normal view =>
          match decode fuel view with
          | None => None
          | Some (throw error) => Some (throw error)
          | Some (normal float32Data) =>
              match float32Data with
              | [] => Some (throw NotSupportedError)
              | _ :: _ =>
                  let startTime := Math_max currentTime nextAudioStartTimeRef in
                  Some (normal
                          (Some {| channelData := float32Data;
                                   startTime := startTime |},
                           add startTime (duration float32Data)))
              end
          end
      end
  | _, _ => Some (normal (None, nextAudioStartTimeRef))
  end.

(** The sample that the pair of bytes at [2 * j] encodes. *)
Definition sampleAt (view : list Z) (j : nat) : number :=
  match getInt16 view (2 * Z.of_nat j) with
  | Some int16 => div (of_Z int16) (of_Z 32768)
  | None => zero
  end.

End Playback.

(** A reference [atob]: the forgiving base64 decoding of the HTML
    standard. *)
Module RefBase64.

Definition isAsciiWhitespace (c : ascii) : bool :=
  match N_of_ascii c with
  | 9%N | 10%N | 12%N | 13%N | 32%N => true
  | _ => false
  end.

(** The six bits a character of the base64 alphabet stands for. *)
Definition sextet (c : ascii) : option N :=
  let n := N_of_ascii c in
  if ((65 <=? n) && (n <=? 90))%N then Some (n - 65)%N
  else if ((97 <=? n) && (n <=? 122))%N then Some (n - 71)%N
  else if ((48 <=? n) && (n <=? 57))%N then Some (n + 4)%N
  else if (n =? 43)%N then Some 62%N
  else if (n =? 47)%N then Some 63%N
  else None.

Fixpoint sextets (l : list ascii) : option (list N) :=
  match l with
  | [] => Some []
  | c :: rest =>
      match sextet c, sextets rest with
      | Some n, Some ns => Some (n :: ns)
      | _, _ => None
      end
  end.

(** Four sextets make three bytes; two or three left over make one or two,
    their last bits discarded. *)
Fixpoint octets (l : list N) : list N :=
  match l with
  | a :: b :: c :: d :: rest =>
      (a * 4 + b / 16)%N :: ((b mod 16) * 16 + c / 4)%N :: ((c mod 4) * 64 + d)%N
      :: octets rest
  | [a; b; c] => [(a * 4 + b / 16)%N; ((b mod 16) * 16 + c / 4)%N]
  | [a; b] => [(a * 4 + b / 16)%N]
  | _ => []
  end.

(** One or two [=] at the end of a text whose length is a multiple of 4
    are dropped. *)
Definition stripPadding (l : list ascii) : list ascii :=
  if (List.length l mod 4 =? 0)%nat then
    match rev l with
    | "="%char :: "="%char :: rest => rev rest
    | "="%char :: rest => rev rest
    | _ => l
    end
  else l.

Definition atob (data : string) : Playback.Completion string :=
  let stripped :=
    stripPadding (filter (fun c => negb (isAsciiWhitespace c))
                    (list_ascii_of_string data)) in
  if (List.length stripped mod 4 =? 1)%nat
  then Playback.throw Playback.InvalidCharacterError
  else match sextets stripped with
       | Some ns =>
           Playback.normal (string_of_list_ascii (map ascii_of_N (octets ns)))
       | None => Playback.throw Playback.InvalidCharacterError
       end.

#[export] Instance host : Playback.Base64Host :=
  {| Playback.atob := atob |}.

End RefBase64.

(** A time: not NaN and not negative ([+0], a positive number or
    [Infinity]). *)
Definition nonnegative (x : number) : bool :=
  negb (is_nan x) && negb (sign_bit x).

(** When a source ends. *)
Definition sourceEnd (s : Playback.Source) : number :=
  add (Playback.startTime s) (Playback.duration (Playback.channelData s)).

(** ** src/App.tsx: the caption of the coach *)

Module Coach.

Definition CONNECTING : string := "正在連接 AI 教練...".
Definition OBSERVING : string := "AI 教練觀察中...".

(** A part of the model turn of a server message. *)
Record Part : Type := {
  text : option string
}.

Record Message : Type := {
  parts : option (list Part);            (* [serverContent?.modelTurn?.parts] *)
  outputTranscription : option string    (* [serverContent?.outputTranscription?.text] *)
}.

(** A string that is neither [undefined] nor empty. *)
Definition truthy (s : option string) : bool :=
  match s with
  | Some EmptyString | None => false
  | Some _ => true
  end.

(** The text a message carries. *)
Definition messageText (msg : Message) : option string :=
  let text :=
    match parts msg with
    | Some ps =>
        match find (fun p => truthy (text p)) ps with
        | Some p => text p
        | None => None
        end
    | None => None
    end in
  if negb (truthy text) && truthy (outputTranscription msg)
  then outputTranscription msg
  else text.

Record State : Type := {
  coachInstruction : option string;
  instructionTimeout : bool              (* the 5 s timer is running *)
}.

(** The updater given to [setCoachInstruction]. *)
Definition appendText (text : string) (prev : option string) : option string :=
  match prev with
  | Some p =>
      if String.eqb p OBSERVING || String.eqb p CONNECTING then Some text
      else Some (p ++ text)%string
  | None => Some text
  end.

(** The text part of [onmessage]. *)
Definition onmessage (st : State) (msg : Message) : State :=
  match messageText msg with
  | Some (String c rest) =>
      {| coachInstruction := appendText (String c rest) (coachInstruction st);
         instructionTimeout := true |}
  | _ => st
  end.

(** The timer fires after 5 s without text. *)
Definition onTimeout (st : State) : State :=
  if instructionTimeout st
  then {| coachInstruction := None; instructionTimeout := false |}
  else st.

End Coach.

(** ** src/App.tsx: asking for a pose *)

Module PoseGuide.

Record Pose : Type := {
  id : string;
  name : string;
  svgPath : option string;
  viewBox : option string;
  imageUrl : option string
}.

Record ResponsePart : Type := {
  inlineData : option (option string)    (* [inlineData], and its [data] *)
}.

(** What [handleGeneratePose] reads and what its requests answer. *)
Record Environment : Type := {
  videoRef : option (Z * Z);             (* videoWidth, videoHeight *)
  isGeneratingPose : bool;
  facingMode : FacingMode;
  context2d : bool;                      (* canvas.getContext('2d') succeeded *)
  (* [generateContent]: rejected ([None]), or resolved with
     [candidates?.[0]?.content?.parts] *)
  response : option (option (list ResponsePart));
  (* [processImageForTransparency]: the URL it resolves with, or rejected *)
  transparent : string -> option string;
  now : Z                                (* Date.now() *)
}.

Inductive Effect : Type :=
| setIsGeneratingPose (busy : bool)
| generateContent (frame : Frame)
| setActivePose (pose : Pose)
| setPoseTransform (t : Transform.t)
| setError (message : option string)
| setErrorAfter (ms : Z) (message : option string).

(** The first part that has [inlineData] decides. *)
Definition extractImage (parts : option (list ResponsePart)) : option string :=
  match parts with
  | Some ps =>
      match find (fun p => match inlineData p with Some _ => true | None => false end) ps with
      | Some p => match inlineData p with Some data => data | None => None end
      | None => None
      end
  | None => None
  end.

Definition failed : list Effect :=
  [setError (Some "生成失敗，請檢查網路連線"%string); setErrorAfter 3000 None].

Definition handleGeneratePose (env : Environment) : list Effect :=
  match videoRef env with
  | None => []
  | Some (videoWidth, videoHeight) =>
      if isGeneratingPose env then [] else
      [setIsGeneratingPose true]
      ++ (if negb (context2d env) then failed
          else
            let frame :=
              {| width := videoWidth;
                 height := videoHeight;
                 ops := match facingMode env with
                        | user => [translate (of_Z videoWidth) (of_Z 0);
                                   scale (of_Z (-1)) (of_Z 1)]
                        | environment => []
                        end
                        (* [drawImage(video, 0, 0)] draws at the size of the video *)
                        ++ [drawImage videoElement (of_Z 0) (of_Z 0)
                              (of_Z videoWidth) (of_Z videoHeight)] |} in
            generateContent frame
            :: match response env with
               | None => failed
               | Some parts =>
                   match extractImage parts with
                   | Some (String c rest) =>
                       match transparent env (String c rest) with
                       | Some transparentImageUrl =>
                           [setActivePose
                              {| id := ("ai-" ++ NilZero.string_of_int (Z.to_int (now env)))%string;
                                 name := "AI Generated";
                                 svgPath := None;
                                 viewBox := None;
                                 imageUrl := Some transparentImageUrl |};
                            setPoseTransform INITIAL_TRANSFORM]
                       | None => failed
                       end
                   | _ =>
                       [setError (Some "AI 沒有回傳圖片，請重試"%string);
                        setErrorAfter 3000 None]
                   end
               end)
      ++ [setIsGeneratingPose false]
  end.

Definition poses (effects : list Effect) : list Pose :=
  flat_map (fun e => match e with setActivePose p => [p] | _ => [] end) effects.

Definition transforms (effects : list Effect) : list Transform.t :=
  flat_map (fun e => match e with setPoseTransform t => [t] | _ => [] end) effects.

Definition errors (effects : list Effect) : list (option string) :=
  flat_map (fun e => match e with setError m => [m] | _ => [] end) effects.

End PoseGuide.

(** ** The transformation in force when something is drawn *)

Section CanvasState.

(** The transformation matrices of the 2D context and the three operations
    that compose one with the current matrix. *)
Variable Matrix : Type.
Variable translateM : number -> number -> Matrix -> Matrix.
Variable rotateM : number -> Matrix -> Matrix.
Variable scaleM : number -> number -> Matrix -> Matrix.

Record Context2D : Type := {
  currentTransform : Matrix;
  stateStack : list Matrix
}.

(** [restore] with nothing saved does nothing. *)
Definition execute (ctx : Context2D) (op : CanvasOp) : Context2D :=
  match op with
  | save =>
      {| currentTransform := currentTransform ctx;
         stateStack := currentTransform ctx :: stateStack ctx |}
  | restore =>
      match stateStack ctx with
      | saved :: rest => {| currentTransform := saved; stateStack := rest |}
      | [] => ctx
      end
  | translate x y =>
      {| currentTransform := translateM x y (currentTransform ctx);
         stateStack := stateStack ctx |}
  | rotate a =>
      {| currentTransform := rotateM a (currentTransform ctx);
         stateStack := stateStack ctx |}
  | scale sx sy =>
      {| currentTransform := scaleM sx sy (currentTransform ctx);
         stateStack := stateStack ctx |}
  | _ => ctx
  end.

(** What a list of operations paints, each with the matrix in force. *)
Fixpoint painted (ctx : Context2D) (ops : list CanvasOp) : list (CanvasOp * Matrix) :=
  match ops with
  | [] => []
  | op :: rest =>
      match op with
      | drawImage _ _ _ _ _ | fillText _ _ _ => [(op, currentTransform ctx)]
      | _ => []
      end ++ painted (execute ctx op) rest
  end.

End CanvasState.

(** ** src/App.tsx: the pose image the coach is shown *)

Module PoseImage.

(** The active pose, the image held by [poseImageRef] (named by its URL)
    and the images still loading. *)
Record State : Type := {
  activePose : option PoseGuide.Pose;
  poseImageRef : option string;
  loading : list string
}.

Fixpoint removeFirst (url : string) (l : list string) : list string :=
  match l with
  | [] => []
  | u :: rest => if String.eqb u url then rest else u :: removeFirst url rest
  end.

Inductive Event : Type :=
| activePoseChanged (pose : option PoseGuide.Pose)   (* the effect on [activePose] runs *)
| onload (url : string)
| onerror (url : string).

Definition step (st : State) (e : Event) : State :=
  match e with
  | activePoseChanged pose =>
      match pose with
      | Some {| PoseGuide.imageUrl := Some (String c rest) |} =>
          {| activePose := pose;
             poseImageRef := poseImageRef st;
             loading := String c rest :: loading st |}
      | _ =>
          {| activePose := pose; poseImageRef := None; loading := loading st |}
      end
  | onload url =>
      if existsb (String.eqb url) (loading st) then
        {| activePose := activePose st;
           poseImageRef := Some url;
           loading := removeFirst url (loading st) |}
      else st
  | onerror url =>
      {| activePose := activePose st;
         poseImageRef := poseImageRef st;
         loading := removeFirst url (loading st) |}
  end.

Definition run (st : State) (events : list Event) : State :=
  fold_left step events st.

End PoseImage.
(** * Properties *)

(** ** Comparisons, [Math.min] and [Math.max] *)

Lemma SFcompare_antisym (a b : number) :
  SFcompare b a = option_map CompOpp (SFcompare a b).
Proof.
  destruct a as [sa|sa| |sa ma ea], b as [sb|sb| |sb mb eb]; simpl;
    try reflexivity; try (destruct sa; reflexivity);
    try (destruct sb; reflexivity);
    try (destruct sa, sb; reflexivity).
  destruct sa, sb; simpl; try reflexivity;
    rewrite (Z.compare_antisym ea eb); destruct (ea ?= eb); simpl;
    try reflexivity;
    change (Pos.compare_cont Eq mb ma) with (Pos.compare mb ma);
    change (Pos.compare_cont Eq ma mb) with (Pos.compare ma mb);
    rewrite (Pos.compare_antisym ma mb);
    try rewrite CompOpp_involutive; reflexivity.
Qed.

Lemma SFcompare_refl (a : number) :
  is_nan a = false -> SFcompare a a = Some Eq.
Proof.
  destruct a as [s|s| |s m e]; simpl; try discriminate; intros _;
    try (destruct s; reflexivity).
  destruct s; rewrite Z.compare_refl;
    change (Pos.compare_cont Eq m m) with (Pos.compare m m);
    rewrite Pos.compare_refl; reflexivity.
Qed.

Lemma SFcompare_None (a b : number) :
  SFcompare a b = None -> is_nan a || is_nan b = true.
Proof.
  destruct a, b; simpl; try discriminate; reflexivity.
Qed.

Lemma ltb_leb (a b : number) : ltb a b = true -> leb a b = true.
Proof.
  unfold ltb, leb, SFltb, SFleb.
  destruct (SFcompare a b) as [[ | | ] | ]; congruence.
Qed.

Lemma leb_refl (a : number) : is_nan a = false -> leb a a = true.
Proof.
  intros H. unfold leb, SFleb. now rewrite SFcompare_refl.
Qed.

Lemma not_ltb_leb (a b : number) :
  is_nan a || is_nan b = false -> ltb a b = false -> leb b a = true.
Proof.
  unfold ltb, leb, SFltb, SFleb. intros Hnan.
  rewrite (SFcompare_antisym a b).
  destruct (SFcompare a b) as [[ | | ] | ] eqn:Hc; simpl; try congruence.
  apply SFcompare_None in Hc. congruence.
Qed.

Lemma leb_zeros (a b : number) :
  is_zero a = true -> is_zero b = true -> leb a b = true.
Proof. destruct a, b; simpl; try discriminate; reflexivity. Qed.

Create HintDb numbers discriminated.
#[local] Hint Resolve ltb_leb leb_refl leb_zeros : numbers.

Lemma Math_min_nan (a b : number) :
  is_nan (Math_min a b) = is_nan a || is_nan b.
Proof.
  unfold Math_min.
  destruct (is_nan a || is_nan b) eqn:Hnan; [reflexivity|].
  apply orb_false_iff in Hnan. destruct Hnan as [Ha Hb].
  destruct (ltb a b); [assumption|].
  destruct (ltb b a); [assumption|].
  destruct (is_zero a && is_zero b); [reflexivity|assumption].
Qed.

Lemma Math_max_nan (a b : number) :
  is_nan (Math_max a b) = is_nan a || is_nan b.
Proof.
  unfold Math_max.
  destruct (is_nan a || is_nan b) eqn:Hnan; [reflexivity|].
  apply orb_false_iff in Hnan. destruct Hnan as [Ha Hb].
  destruct (ltb a b); [assumption|].
  destruct (ltb b a); [assumption|].
  destruct (is_zero a && is_zero b); [reflexivity|assumption].
Qed.

(** [Math.min] of two numbers is one of them (up to the sign of a zero)
    and is below both. *)
Lemma Math_min_spec (a b : number) :
  is_nan a || is_nan b = false ->
  leb (Math_min a b) a = true /\ leb (Math_min a b) b = true /\
  (Math_min a b = a \/ Math_min a b = b \/
   (is_zero a = true /\ is_zero b = true /\ is_zero (Math_min a b) = true)).
Proof.
  intros Hnan. unfold Math_min. rewrite Hnan.
  pose proof Hnan as Hnan'. apply orb_false_iff in Hnan'.
  destruct Hnan' as [Ha Hb].
  destruct (ltb a b) eqn:Hab.
  { auto with numbers. }
  destruct (ltb b a) eqn:Hba.
  { repeat split; auto with numbers. }
  destruct (is_zero a && is_zero b) eqn:Hz.
  - apply andb_true_iff in Hz. destruct Hz as [Hza Hzb].
    repeat split; auto 6 with numbers.
  - repeat split; auto with numbers.
    apply not_ltb_leb; [now rewrite orb_comm|assumption].
Qed.

(** [Math.max] of two numbers is one of them (up to the sign of a zero)
    and is above both. *)
Lemma Math_max_spec (a b : number) :
  is_nan a || is_nan b = false ->
  leb a (Math_max a b) = true /\ leb b (Math_max a b) = true /\
  (Math_max a b = a \/ Math_max a b = b \/
   (is_zero a = true /\ is_zero b = true /\ is_zero (Math_max a b) = true)).
Proof.
  intros Hnan. unfold Math_max. rewrite Hnan.
  pose proof Hnan as Hnan'. apply orb_false_iff in Hnan'.
  destruct Hnan' as [Ha Hb].
  destruct (ltb a b) eqn:Hab.
  { repeat split; auto with numbers. }
  destruct (ltb b a) eqn:Hba.
  { repeat split; auto with numbers. }
  destruct (is_zero a && is_zero b) eqn:Hz.
  - apply andb_true_iff in Hz. destruct Hz as [Hza Hzb].
    repeat split; auto 6 with numbers.
  - repeat split; auto with numbers.
    apply not_ltb_leb; assumption.
Qed.

(** ** The scale clamp *)

Lemma clampScale_nan (s : number) : is_nan (clampScale s) = is_nan s.
Proof.
  unfold clampScale. rewrite Math_max_nan, Math_min_nan. simpl.
  now rewrite orb_false_r.
Qed.

(** Whenever the clamp yields a number, it is within [[0.2, 5]]. *)
Lemma clampScale_bounds (s : number) :
  is_nan s = false ->
  leb lit_0_2 (clampScale s) = true /\ leb (clampScale s) (of_Z 5) = true.
Proof.
  intros Hs. unfold clampScale.
  assert (Hn1 : is_nan s || is_nan (of_Z 5) = false) by now rewrite Hs.
  destruct (Math_min_spec s (of_Z 5) Hn1) as (_ & Hle5 & Hmin).
  assert (Hn2 : is_nan lit_0_2 || is_nan (Math_min s (of_Z 5)) = false).
  { rewrite Math_min_nan, Hs. reflexivity. }
  destruct (Math_max_spec lit_0_2 (Math_min s (of_Z 5)) Hn2) as (Hlo & _ & Hmax).
  split; [assumption|].
  destruct Hmax as [-> | [-> | (Hz & _)]].
  - reflexivity.
  - assumption.
  - discriminate.
Qed.

Lemma clampScale_Infinity : clampScale Infinity = of_Z 5.
Proof. reflexivity. Qed.

(** ** Geometry *)

Lemma add_comm (a b : number) : add a b = add b a.
Proof.
  destruct a as [sa|sa| |sa ma ea], b as [sb|sb| |sb mb eb];
    try reflexivity; try (destruct sa, sb; reflexivity).
  unfold add, SFadd. rewrite (Z.min_comm ea eb). f_equal. apply Z.add_comm.
Qed.

Lemma abs_binary_round_aux (s s' : bool) (m e : Z) (l : location) :
  abs (binary_round_aux prec emax s m e l) =
  abs (binary_round_aux prec emax s' m e l).
Proof.
  unfold binary_round_aux.
  destruct (shr_fexp prec emax m e l) as [mrs' e'].
  destruct (shr_fexp prec emax _ e' loc_Exact) as [mrs'' e''].
  destruct (shr_m mrs''); try reflexivity.
  destruct (e'' <=? emax - prec); reflexivity.
Qed.

Lemma abs_binary_normalize_opp (d e : Z) :
  abs (binary_normalize prec emax (- d) e false) =
  abs (binary_normalize prec emax d e false).
Proof.
  destruct d as [|p|p]; simpl; try reflexivity; unfold binary_round;
    destruct (shl_align _ _ _); apply abs_binary_round_aux.
Qed.

(** Exchanging the operands of a subtraction changes the sign of the
    difference only. *)
Lemma abs_sub_swap (a b : number) : abs (sub a b) = abs (sub b a).
Proof.
  destruct a as [sa|sa| |sa ma ea], b as [sb|sb| |sb mb eb];
    try reflexivity; try (destruct sa, sb; reflexivity).
  unfold sub, SFsub. rewrite (Z.min_comm eb ea).
  rewrite <- abs_binary_normalize_opp. f_equal. f_equal. lia.
Qed.

Lemma RefHost_hypot_abs (u v : number) :
  RefHost.hypot u v = RefHost.hypot (abs u) (abs v).
Proof.
  destruct u as [su|su| |su mu eu], v as [sv|sv| |sv mv ev]; try reflexivity;
    unfold RefHost.hypot; simpl; unfold mul, SFmul;
    repeat rewrite xorb_nilpotent; reflexivity.
Qed.

(** The reference host on the axes and the diagonals. *)
Example RefHost_angles :
  let angleTo x y := getAngle (host := RefHost.host)
                       (Touch.mk 0 (of_Z 0) (of_Z 0)) (Touch.mk 1 (of_Z x) (of_Z y)) in
  angleTo 1 0 = of_Z 0 /\ angleTo 0 1 = of_Z 90 /\
  angleTo (-1) 0 = of_Z 180 /\ angleTo 0 (-1) = of_Z (-90) /\
  angleTo (-1) 1 = of_Z 135 /\ angleTo (-1) (-1) = of_Z (-135).
Proof. vm_compute. repeat split. Qed.

Example RefHost_distances :
  let distanceTo x y := getDistance (host := RefHost.host)
                          (Touch.mk 0 (of_Z 0) (of_Z 0)) (Touch.mk 1 (of_Z x) (of_Z y)) in
  distanceTo 0 0 = of_Z 0 /\ distanceTo 100 0 = of_Z 100 /\
  distanceTo 3 (-4) = of_Z 5 /\ distanceTo (-5) 12 = of_Z 13.
Proof. vm_compute. repeat split. Qed.

(** ** Rounding *)

Lemma digits2_pos_size (p : positive) : digits2_pos p = Pos.size p.
Proof. induction p; simpl; congruence. Qed.

(** A positive number below [2^k] has at most [k] binary digits. *)
Lemma digits2_pos_le (p : positive) (k : Z) :
  0 <= k -> Zpos p < 2 ^ k -> Zpos (digits2_pos p) <= k.
Proof.
  intros Hk Hp. rewrite digits2_pos_size.
  pose proof (Pos.size_le p) as Hsize.
  assert (H2 : 2 ^ Zpos (Pos.size p) <= 2 * Zpos p).
  { rewrite <- Pos2Z.inj_pow. change (2 * Zpos p) with (Zpos p~0).
    apply Pos2Z.pos_le_pos. exact Hsize. }
  assert (H3 : 2 ^ Zpos (Pos.size p) < 2 ^ (k + 1)).
  { rewrite Z.pow_add_r by lia. change (2 ^ 1) with 2. lia. }
  apply Z.pow_lt_mono_r_iff in H3; lia.
Qed.

(** A positive number is below [2^d] for its number [d] of digits. *)
Lemma digits2_pos_gt (p : positive) : Zpos p < 2 ^ Zpos (digits2_pos p).
Proof.
  rewrite digits2_pos_size, <- Pos2Z.inj_pow.
  apply Pos2Z.pos_lt_pos. apply Pos.size_gt.
Qed.

Lemma digits2_pos_ge (p : positive) : 2 ^ Zpos (digits2_pos p) <= 2 * Zpos p.
Proof.
  rewrite digits2_pos_size, <- Pos2Z.inj_pow.
  change (2 * Zpos p) with (Zpos p~0). apply Pos2Z.pos_le_pos. apply Pos.size_le.
Qed.

Lemma shr_1_m (r : shr_record) :
  0 <= shr_m r -> shr_m (shr_1 r) = shr_m r / 2.
Proof.
  destruct r as [m rb sb]. simpl. intros Hm.
  destruct m as [|[p|p|]|p]; simpl; try reflexivity; try lia.
  - change (Zpos p~1) with (1 + 2 * Zpos p).
    rewrite (Z.mul_comm 2), Z.div_add by lia. reflexivity.
  - change (Zpos p~0) with (2 * Zpos p).
    rewrite (Z.mul_comm 2), Z.div_mul by lia. reflexivity.
Qed.

Lemma iter_shr_1_m (n : positive) (r : shr_record) :
  0 <= shr_m r -> shr_m (iter_pos shr_1 n r) = shr_m r / 2 ^ Zpos n.
Proof.
  revert r. induction n as [n IH|n IH|]; intros r Hr; cbn [iter_pos].
  - assert (Hp : 0 < 2 ^ Zpos n) by (apply Z.pow_pos_nonneg; lia).
    assert (H1 : 0 <= shr_m (shr_1 r)).
    { rewrite shr_1_m by assumption. apply Z.div_pos; lia. }
    assert (H2 : 0 <= shr_m (iter_pos shr_1 n (shr_1 r))).
    { rewrite IH by assumption. apply Z.div_pos; assumption. }
    rewrite IH, IH, shr_1_m by assumption.
    rewrite !Z.div_div by lia.
    f_equal. rewrite (Pos2Z.inj_xI n).
    replace (2 * Zpos n + 1) with (1 + Zpos n + Zpos n) by lia.
    rewrite !Z.pow_add_r by lia. change (2 ^ 1) with 2. lia.
  - assert (Hp : 0 < 2 ^ Zpos n) by (apply Z.pow_pos_nonneg; lia).
    assert (H2 : 0 <= shr_m (iter_pos shr_1 n r)).
    { rewrite IH by assumption. apply Z.div_pos; assumption. }
    rewrite IH, IH by assumption.
    rewrite Z.div_div by lia.
    f_equal. rewrite (Pos2Z.inj_xO n).
    replace (2 * Zpos n) with (Zpos n + Zpos n) by lia.
    rewrite Z.pow_add_r by lia. reflexivity.
  - rewrite shr_1_m by assumption. reflexivity.
Qed.

(** The shift that brings an exact mantissa to its canonical exponent
    divides it by a power of two. *)
Lemma shr_fexp_exact (m e : Z) :
  0 <= m ->
  exists n, 0 <= n /\
    snd (shr_fexp prec emax m e loc_Exact) = e + n /\
    shr_m (fst (shr_fexp prec emax m e loc_Exact)) = m / 2 ^ n /\
    e + n = Z.max e (fexp prec emax (Zdigits2 m + e)).
Proof.
  intros Hm. unfold shr_fexp, shr.
  destruct (fexp prec emax (Zdigits2 m + e) - e) as [|p|p] eqn:Hn.
  - exists 0. simpl. rewrite Z.div_1_r. repeat split; lia.
  - exists (Zpos p). cbn [fst snd]. rewrite iter_shr_1_m by exact Hm.
    simpl shr_m. repeat split; lia.
  - exists 0. simpl. rewrite Z.div_1_r. repeat split; lia.
Qed.

Lemma round_nearest_even_le (q : Z) (l : location) :
  q <= round_nearest_even q l <= q + 1.
Proof.
  destruct l as [|[ | | ]]; simpl; try lia. destruct (Z.even q); lia.
Qed.

(** Rounding an exact product below [B] on the grid of exponent [<= 0]
    yields a number whose integer part is at most [B]. *)
Lemma round_truncate_le (s : bool) (M E B : Z) :
  0 < M -> 0 < B -> E <= 0 ->
  fexp prec emax (Zdigits2 M + E) <= 0 ->
  M < B * 2 ^ (- E) ->
  Z.abs (truncate (binary_round_aux prec emax s M E loc_Exact)) <= B.
Proof.
  intros HM HB HE Hfexp Hlt. unfold binary_round_aux.
  destruct (shr_fexp_exact M E) as (n & Hn & He' & Hq & Hmax); [lia|].
  destruct (shr_fexp prec emax M E loc_Exact) as [mrs' e']. cbn [fst snd] in *.
  set (q := shr_m mrs') in *.
  set (m1 := round_nearest_even q (loc_of_shr_record mrs')).
  pose proof (round_nearest_even_le q (loc_of_shr_record mrs')) as Hm1.
  fold m1 in Hm1.
  assert (Hpn : 0 < 2 ^ n) by (apply Z.pow_pos_nonneg; lia).
  assert (He'0 : e' <= 0) by lia.
  assert (Hpe' : 0 < 2 ^ (- e')) by (apply Z.pow_pos_nonneg; lia).
  assert (Hq0 : 0 <= q) by (rewrite Hq; apply Z.div_pos; lia).
  assert (Hsplit : 2 ^ (- E) = 2 ^ (- e') * 2 ^ n).
  { rewrite <- Z.pow_add_r by lia. f_equal. lia. }
  assert (Hqlt : q < B * 2 ^ (- e')).
  { pose proof (Z.mul_div_le M (2 ^ n) Hpn) as Hfloor. rewrite <- Hq in Hfloor.
    rewrite Hsplit in Hlt. nia. }
  assert (Hm1le : m1 <= B * 2 ^ (- e')) by lia.
  destruct (shr_fexp_exact m1 e') as (n2 & Hn2 & He'' & Hq2 & _); [lia|].
  destruct (shr_fexp prec emax m1 e' loc_Exact) as [mrs'' e'']. cbn [fst snd] in *.
  assert (Hpn2 : 0 < 2 ^ n2) by (apply Z.pow_pos_nonneg; lia).
  pose proof (Z.mul_div_le m1 (2 ^ n2) Hpn2) as Hfloor2. rewrite <- Hq2 in Hfloor2.
  destruct (shr_m mrs'') as [|m''|m''] eqn:Hm''; [simpl; lia| |simpl; lia].
  destruct (e'' <=? emax - prec); [|simpl; lia].
  unfold truncate.
  assert (Ht : (if 0 <=? e'' then Zpos m'' * 2 ^ e'' else Zpos m'' / 2 ^ (- e'')) <= B
               /\ 0 <= (if 0 <=? e'' then Zpos m'' * 2 ^ e'' else Zpos m'' / 2 ^ (- e''))).
  { destruct (Z.leb_spec 0 e'') as [Hpos|Hneg].
    - assert (Hpe'' : 0 < 2 ^ e'') by (apply Z.pow_pos_nonneg; lia).
      assert (Hn2split : 2 ^ n2 = 2 ^ e'' * 2 ^ (- e')).
      { rewrite <- Z.pow_add_r by lia. f_equal. lia. }
      rewrite Hn2split in Hfloor2. split; [nia|lia].
    - assert (Hpe'' : 0 < 2 ^ (- e'')) by (apply Z.pow_pos_nonneg; lia).
      assert (Hsplit2 : 2 ^ (- e') = 2 ^ (- e'') * 2 ^ n2).
      { rewrite <- Z.pow_add_r by lia. f_equal. lia. }
      rewrite Hsplit2 in Hm1le. split.
      + apply Z.div_le_upper_bound; [lia|]. nia.
      + apply Z.div_pos; lia. }
  revert Ht.
  generalize (if 0 <=? e'' then Zpos m'' * 2 ^ e'' else Zpos m'' / 2 ^ (- e'')).
  intros t Ht. destruct s; unfold cond_Zopp; lia.
Qed.

(** ** Transparency post-process *)

Lemma same_eq (a b : number) : same a b = true -> a = b.
Proof.
  destruct a, b; simpl; try discriminate; intros H.
  - apply eqb_prop in H. now subst.
  - apply eqb_prop in H. now subst.
  - reflexivity.
  - apply andb_true_iff in H. destruct H as [H He].
    apply andb_true_iff in H. destruct H as [Hs Hm].
    apply eqb_prop in Hs. apply Pos.eqb_eq in Hm. apply Z.eqb_eq in He.
    now subst.
Qed.

Lemma forall_upto_spec (n : nat) (f : Z -> bool) :
  forall_upto n f = true ->
  forall z, 0 <= z <= Z.of_nat n -> f z = true.
Proof.
  induction n as [|k IH]; intros H z Hz.
  - simpl in H. replace z with 0 by lia. exact H.
  - cbn [forall_upto] in H. apply andb_true_iff in H. destruct H as [Hk Hrest].
    destruct (Z.eq_dec z (Z.of_nat (S k))) as [-> | Hne]; [exact Hk|].
    apply IH; [exact Hrest|lia].
Qed.



(** ** Microphone samples *)

(** A valid finite number has at most 53 digits, and exactly 53 when its
    exponent is that of [1]. *)
Lemma valid_finite (s : bool) (m : positive) (e : Z) :
  valid (S754_finite s m e) = true ->
  Zpos m < 2 ^ 53 /\ (e = -52 -> 2 ^ 52 <= Zpos m).
Proof.
  unfold valid, valid_binary, bounded, canonical_mantissa. intros H.
  apply andb_true_iff in H. destruct H as [Hc _].
  apply Z.eqb_eq in Hc. unfold fexp, emin, prec, emax in Hc.
  pose proof (digits2_pos_gt m) as Hgt.
  pose proof (digits2_pos_ge m) as Hge.
  set (d := Zpos (digits2_pos m)) in *.
  assert (Hd : d <= 53) by lia.
  split.
  - assert (Hpow : 2 ^ d <= 2 ^ 53) by (apply Z.pow_le_mono_r; lia). lia.
  - intros He. assert (Hd53 : d = 53) by lia. rewrite Hd53 in Hge.
    change (2 ^ 53) with (2 * 2 ^ 52) in Hge. lia.
Qed.

Lemma clampSample_cases (x : number) :
  is_nan x = false ->
  (clampSample x = of_Z (-1) \/ clampSample x = of_Z 1 \/ clampSample x = x) /\
  leb (of_Z (-1)) (clampSample x) = true /\
  leb (clampSample x) (of_Z 1) = true.
Proof.
  intros Hx. unfold clampSample.
  assert (Hn1 : is_nan (of_Z 1) || is_nan x = false) by now rewrite Hx.
  destruct (Math_min_spec (of_Z 1) x Hn1) as (Hle1 & _ & Hmin).
  assert (Hn2 : is_nan (of_Z (-1)) || is_nan (Math_min (of_Z 1) x) = false).
  { rewrite Math_min_nan, Hx. reflexivity. }
  destruct (Math_max_spec (of_Z (-1)) (Math_min (of_Z 1) x) Hn2) as (Hlo & _ & Hmax).
  split; [|split; [assumption|]].
  - destruct Hmax as [-> | [-> | (Hz & _)]]; [now left| |discriminate].
    destruct Hmin as [-> | [-> | (Hz & _)]]; [now right; left|now right; right|discriminate].
  - destruct Hmax as [-> | [-> | (Hz & _)]]; [reflexivity|assumption|discriminate].
Qed.

Lemma clampSample_nan (x : number) : is_nan (clampSample x) = is_nan x.
Proof. unfold clampSample. now rewrite Math_max_nan, Math_min_nan. Qed.

(** A number of [[-1, 1]] scaled by [32767] has its integer part in
    [[-32767, 32767]]. *)
Lemma scale_unit_le (x : number) :
  valid x = true ->
  leb (of_Z (-1)) x = true -> leb x (of_Z 1) = true ->
  Z.abs (truncate (mul x (of_Z 32767))) <= 32767.
Proof.
  intros Hv Hlo Hhi.
  destruct x as [s|s| |s m e].
  - destruct s; vm_compute; discriminate.
  - destruct s; [vm_compute in Hlo | vm_compute in Hhi]; discriminate.
  - vm_compute in Hlo; discriminate.
  - destruct (valid_finite s m e Hv) as [Hm He52].
    assert (He : e <= -52 /\ (e = -52 -> Zpos m <= 2 ^ 52)).
    { destruct s.
      - clear Hhi. unfold leb, SFleb in Hlo.
        change (of_Z (-1)) with (S754_finite true 4503599627370496 (-52)) in Hlo.
        cbn [SFcompare] in Hlo.
        rewrite Pos.compare_cont_spec, Pos2Z.inj_compare in Hlo.
        destruct (Z.compare_spec (-52) e) as [Heq|Hlt|Hgt]; try discriminate;
          [|split; lia].
        destruct (Z.compare_spec (Zpos 4503599627370496) (Zpos m))
          as [Hpeq|Hplt|Hpgt]; try discriminate;
          change (2 ^ 52) with (Zpos 4503599627370496); split; lia.
      - clear Hlo. unfold leb, SFleb in Hhi.
        change (of_Z 1) with (S754_finite false 4503599627370496 (-52)) in Hhi.
        cbn [SFcompare] in Hhi.
        rewrite Pos.compare_cont_spec, Pos2Z.inj_compare in Hhi.
        destruct (Z.compare_spec e (-52)) as [Heq|Hlt|Hgt]; try discriminate;
          [|split; lia].
        destruct (Z.compare_spec (Zpos m) (Zpos 4503599627370496))
          as [Hpeq|Hplt|Hpgt]; try discriminate;
          change (2 ^ 52) with (Zpos 4503599627370496); split; lia. }
    destruct He as [He Hone].
    destruct (Z.eq_dec e (-52)) as [-> | Hne].
    + assert (Hmeq : m = 4503599627370496%positive).
      { specialize (He52 eq_refl). specialize (Hone eq_refl).
        change (2 ^ 52) with (Zpos 4503599627370496) in He52, Hone.
        apply Pos2Z.inj. lia. }
      subst m. destruct s; vm_compute; discriminate.
    + change (of_Z 32767) with (S754_finite false 9006924376834048 (-38)).
      unfold mul, SFmul. rewrite xorb_false_r.
      change (2 ^ 53) with 9007199254740992 in Hm.
      assert (HM : Zpos (m * 9006924376834048)
                   < 9007199254740992 * 9006924376834048).
      { rewrite Pos2Z.inj_mul. apply Z.mul_lt_mono_pos_r; lia. }
      apply round_truncate_le; try lia.
      * unfold fexp, emin, prec, emax, Zdigits2.
        assert (Hd : Zpos (digits2_pos (m * 9006924376834048)) <= 106).
        { apply digits2_pos_le; [lia|].
          eapply Z.lt_trans; [exact HM|]. reflexivity. }
        lia.
      * assert (Hpow : 2 ^ 91 <= 2 ^ (- (e + -38))) by (apply Z.pow_le_mono_r; lia).
        eapply Z.lt_le_trans; [exact HM|].
        change (9007199254740992 * 9006924376834048) with (32767 * 2 ^ 91).
        apply Z.mul_le_mono_nonneg_l; [lia|exact Hpow].
Qed.

(** The wrap-around of [ToInt16] leaves the integers of
    [[-32767, 32767]] as they are. *)
Lemma ToInt16_small (x : number) :
  Z.abs (truncate x) <= 32767 -> ToInt16 x = truncate x.
Proof.
  intros H. unfold ToInt16. generalize dependent (truncate x). intros t Ht.
  destruct (Z.leb_spec 32768 (t mod 65536)) as [Hw|Hw];
    Z.div_mod_to_equations; lia.
Qed.

Lemma scaleSample_int16 (x : number) :
  valid x = true ->
  ToInt16 (scaleSample x) = truncate (scaleSample x) /\
  -32767 <= ToInt16 (scaleSample x) <= 32767.
Proof.
  intros Hv.
  assert (Habs : Z.abs (truncate (scaleSample x)) <= 32767).
  { unfold scaleSample. destruct (is_nan x) eqn:Hnan.
    - destruct x; discriminate.
    - destruct (clampSample_cases x Hnan) as (Hcases & Hlo & Hhi).
      destruct Hcases as [-> | [-> | Hx]].
      + vm_compute. discriminate.
      + vm_compute. discriminate.
      + rewrite Hx in Hlo, Hhi |- *. now apply scale_unit_le.
  }
  rewrite (ToInt16_small _ Habs). split; [reflexivity|lia].
Qed.

(** ** Gesture engine *)

Section GestureFacts.
Context {host : MathHost}.

Lemma handleTouchMove_two (touches : list DomTouch) (st : Overlay)
    (t0 t1 : Touch.t) (g : GestureData) :
  TouchMap.values (updateTouches touches) = [t0; t1] ->
  initialGestureData st = Some g ->
  transform (handleTouchMove touches st) =
    pinchTransform (initialTransform st) g
      (getDistance t0 t1) (getAngle t0 t1) (getMidpoint t0 t1).
Proof.
  intros Hv Hg. unfold handleTouchMove. rewrite Hv, Hg. reflexivity.
Qed.

Lemma handleTouchMove_one (touches : list DomTouch) (st : Overlay)
    (touch : Touch.t) (g : GestureData) :
  TouchMap.values (updateTouches touches) = [touch] ->
  initialGestureData st = Some g ->
  transform (handleTouchMove touches st) =
    panTransform (transform st) (initialTransform st) g touch.
Proof.
  intros Hv Hg. unfold handleTouchMove. rewrite Hv, Hg. reflexivity.
Qed.

Lemma handleTouchMove_no_reference (touches : list DomTouch) (st : Overlay) :
  initialGestureData st = None ->
  transform (handleTouchMove touches st) = transform st.
Proof.
  intros Hg. unfold handleTouchMove. rewrite Hg.
  destruct (TouchMap.values (updateTouches touches)) as [|? [|? [|? ?]]];
    reflexivity.
Qed.

Lemma handleTouchMove_other_count (touches : list DomTouch) (st : Overlay) :
  TouchMap.size (updateTouches touches) <> 1%nat ->
  TouchMap.size (updateTouches touches) <> 2%nat ->
  transform (handleTouchMove touches st) = transform st.
Proof.
  unfold handleTouchMove, TouchMap.size, TouchMap.values.
  intros H1 H2.
  destruct (updateTouches touches) as [|? [|? [|? ?]]]; simpl in *;
    try congruence; destruct (initialGestureData st); reflexivity.
Qed.

(** The scale published by a two-touch move is the clamp of
    [baseline.scale * (newDist / referenceDistance)]: NaN exactly when that
    product is NaN, and within [[0.2, 5]] otherwise. *)
Lemma pinch_scale_clamped_or_nan (touches : list DomTouch) (st : Overlay)
    (t0 t1 : Touch.t) (g : GestureData) :
  TouchMap.values (updateTouches touches) = [t0; t1] ->
  initialGestureData st = Some g ->
  let product := mul (Transform.scale (initialTransform st))
                     (div (getDistance t0 t1) (distance g)) in
  let s := Transform.scale (transform (handleTouchMove touches st)) in
  is_nan s = is_nan product /\
  (is_nan product = false ->
   leb lit_0_2 s = true /\ leb s (of_Z 5) = true).
Proof.
  intros Hv Hg product s. subst s.
  rewrite (handleTouchMove_two _ _ _ _ _ Hv Hg). cbn [pinchTransform Transform.scale].
  fold product. split; [apply clampScale_nan|apply clampScale_bounds].
Qed.

End GestureFacts.

(** ** Frame compositor *)

Lemma markers_of_wireframe (vf : Viewfinder) (videoW videoH canvasW canvasH : Z) :
  flat_map (fun op => match op with
                      | fillText t x y => [(t, x, y)]
                      | _ => []
                      end)
           (compositeWireframe vf videoW videoH canvasW canvasH) = [].
Proof. reflexivity. Qed.

(** ** Claim C1 *)

(** C1 (the code departs from the claim).  Two fingers put down on the same
    point and moved without separating: the reference distance and the new
    distance are both [0], the multiplier [0 / 0] is NaN, and NaN passes
    through [Math.max(0.2, Math.min(_, 5))]: the published scale is NaN,
    outside [[0.2, 5]].  For every other product the clamp holds
    ([clampScale_bounds]). *)
Theorem pinch_scale_nan_on_coincident_touches :
  let fingers := [touchAt 0 10 10; touchAt 1 10 10] in
  let st := run (host := RefHost.host) (mount INITIAL_TRANSFORM)
              [onTouchStart fingers; onTouchMove fingers] in
  option_map distance (initialGestureData st) = Some (of_Z 0) /\
  Transform.scale (transform st) = NaN /\
  leb lit_0_2 (Transform.scale (transform st)) = false /\
  leb (Transform.scale (transform st)) (of_Z 5) = false.
Proof. vm_compute. repeat split. Qed.

(** ** Claim C2 *)

(** C2, counterexample.  With a stored reference distance of [0] and the
    fingers then 100 apart, the scale is [5], not the clamped baseline
    scale [1]: the multiplier is not treated as [1]. *)
Lemma zero_reference_distance_not_guarded :
  let st0 := run (host := RefHost.host) (mount INITIAL_TRANSFORM)
               [onTouchStart [touchAt 0 0 0; touchAt 1 0 0]] in
  let st := handleTouchMove (host := RefHost.host)
              [touchAt 0 0 0; touchAt 1 100 0] st0 in
  option_map distance (initialGestureData st0) = Some (of_Z 0) /\
  Transform.scale (transform st) = of_Z 5 /\
  clampScale (Transform.scale (initialTransform st0)) = of_Z 1 /\
  Transform.scale (transform st) <> clampScale (Transform.scale (initialTransform st0)).
Proof. vm_compute. repeat split. discriminate. Qed.

(** C2, as amended.  In a two-touch move against a stored reference
    distance of [0], with the fingers now a positive distance apart, the
    multiplier is [+Infinity] and the scale is the upper bound [5] for
    every positive baseline scale.  [handleTouchMove] is a total function:
    the division raises nothing. *)
Theorem zero_reference_distance_saturates {host : MathHost}
    (touches : list DomTouch) (st : Overlay) (t0 t1 : Touch.t) (g : GestureData) :
  TouchMap.values (updateTouches touches) = [t0; t1] ->
  initialGestureData st = Some g ->
  distance g = of_Z 0 ->
  is_positive (getDistance t0 t1) ->
  is_positive (Transform.scale (initialTransform st)) ->
  div (getDistance t0 t1) (distance g) = Infinity /\
  Transform.scale (transform (handleTouchMove touches st)) = of_Z 5.
Proof.
  intros Hv Hg Hd Hnew Hbase.
  rewrite (handleTouchMove_two _ _ _ _ _ Hv Hg).
  unfold pinchTransform; simpl. rewrite Hd.
  assert (Hdiv : div (getDistance t0 t1) (of_Z 0) = Infinity).
  { unfold is_positive in Hnew.
    destruct (getDistance t0 t1) as [s|s| |s m e]; try discriminate;
      destruct s; try discriminate; reflexivity. }
  rewrite Hdiv. split; [reflexivity|].
  unfold is_positive in Hbase.
  destruct (Transform.scale (initialTransform st)) as [s|s| |s m e];
    try discriminate; destruct s; try discriminate; reflexivity.
Qed.

Lemma zero_reference_distance_saturates_witness :
  let st0 := run (host := RefHost.host) (mount INITIAL_TRANSFORM)
               [onTouchStart [touchAt 0 0 0; touchAt 1 0 0]] in
  Transform.scale
    (transform (handleTouchMove (host := RefHost.host)
                  [touchAt 0 0 0; touchAt 1 100 0] st0)) = of_Z 5.
Proof.
  intros st0.
  refine (proj2 (zero_reference_distance_saturates (host := RefHost.host)
            [touchAt 0 0 0; touchAt 1 100 0] st0
            (Touch.mk 0 (of_Z 0) (of_Z 0)) (Touch.mk 1 (of_Z 100) (of_Z 0))
            {| distance := of_Z 0; angle := of_Z 0;
               center := Point.mk (of_Z 0) (of_Z 0) |} _ _ _ _ _));
    reflexivity.
Defined.

(** ** Claim C3 *)

(** C3, counterexample.  The midpoint of the fingers goes from [(50, 0)] to
    [(100, 0)], so the overlay is carried 50 to the right: [x] is [50],
    not [0]. *)
Lemma pinch_scenario_center_moves :
  let st := run (host := RefHost.host) (mount INITIAL_TRANSFORM)
              [onTouchStart pinchStart; onTouchMove pinchMove] in
  option_map center (initialGestureData st) = Some (Point.mk (of_Z 50) (of_Z 0)) /\
  Transform.x (transform st) = of_Z 50 /\
  transform st <> Transform.mk (of_Z 0) (of_Z 0) (of_Z 2) (of_Z 0).
Proof. vm_compute. repeat split. discriminate. Qed.

(** C3, as amended.  From the baseline [{0, 0, 1, 0}], fingers starting at
    [(0,0)] and [(100,0)] and moved to [(0,0)] and [(200,0)] yield
    [{x: 50, y: 0, scale: 2, rotation: 0}], on every host whose [Math.hypot]
    and [Math.atan2] are exact on these axis-aligned vectors. *)
Theorem pinch_scenario {host : MathHost} :
  Math_hypot (of_Z 100) (of_Z 0) = of_Z 100 ->
  Math_hypot (of_Z 200) (of_Z 0) = of_Z 200 ->
  Math_atan2 (of_Z 0) (of_Z 100) = of_Z 0 ->
  Math_atan2 (of_Z 0) (of_Z 200) = of_Z 0 ->
  transform (run (mount INITIAL_TRANSFORM)
               [onTouchStart pinchStart; onTouchMove pinchMove]) =
    Transform.mk (of_Z 50) (of_Z 0) (of_Z 2) (of_Z 0).
Proof.
  intros Hd1 Hd2 Ha1 Ha2.
  pose (s0 := Touch.mk 0 (of_Z 0) (of_Z 0)).
  pose (s1 := Touch.mk 1 (of_Z 100) (of_Z 0)).
  pose (m1 := Touch.mk 1 (of_Z 200) (of_Z 0)).
  assert (Ed1 : getDistance s0 s1 = of_Z 100) by exact Hd1.
  assert (Ed2 : getDistance s0 m1 = of_Z 200) by exact Hd2.
  assert (Ea1 : getAngle s0 s1 = of_Z 0).
  { unfold getAngle. change (Math_atan2 _ _) with (Math_atan2 (of_Z 0) (of_Z 100)).
    rewrite Ha1. reflexivity. }
  assert (Ea2 : getAngle s0 m1 = of_Z 0).
  { unfold getAngle. change (Math_atan2 _ _) with (Math_atan2 (of_Z 0) (of_Z 200)).
    rewrite Ha2. reflexivity. }
  unfold run; cbn [fold_left dispatch].
  rewrite (handleTouchMove_two pinchMove _ s0 m1
             {| distance := getDistance s0 s1; angle := getAngle s0 s1;
                center := getMidpoint s0 s1 |});
    [ | reflexivity | reflexivity ].
  rewrite Ed1, Ed2, Ea1, Ea2. reflexivity.
Qed.

Lemma pinch_scenario_witness :
  transform (run (host := RefHost.host) (mount INITIAL_TRANSFORM)
               [onTouchStart pinchStart; onTouchMove pinchMove]) =
    Transform.mk (of_Z 50) (of_Z 0) (of_Z 2) (of_Z 0).
Proof.
  apply (pinch_scenario (host := RefHost.host)); reflexivity.
Defined.

(** ** Claim C4 *)

Lemma eqb_refl (a : number) : is_nan a = false -> eqb a a = true.
Proof. intros H. unfold eqb, SFeqb. now rewrite SFcompare_refl. Qed.

Lemma sub_diag (c : number) : is_finite c = true -> sub c c = of_Z 0.
Proof.
  destruct c as [s|s| |s m e]; try discriminate; intros _.
  - destruct s; reflexivity.
  - unfold sub, SFsub. rewrite Z.sub_diag. reflexivity.
Qed.

Lemma add_zero_eqb (a : number) :
  is_finite a = true -> eqb (add a (of_Z 0)) a = true.
Proof.
  destruct a as [s|s| |s m e]; try discriminate; intros _.
  - destruct s; reflexivity.
  - apply eqb_refl. reflexivity.
Qed.

(** A move that leaves the fingers where the reference was taken puts the
    overlay back on the baseline position. *)
Lemma rebased_move_keeps_position (base c : number) :
  is_finite base = true -> is_finite c = true ->
  eqb (add base (sub c c)) base = true.
Proof.
  intros Hb Hc. rewrite (sub_diag c Hc). now apply add_zero_eqb.
Qed.

(** C4, counterexample.  Two fingers down, then one lifted: the overlay's
    [onTouchEnd] handler clears the reference instead of recomputing it for
    the remaining finger, and the moves of that finger change nothing. *)
Lemma lifting_a_finger_clears_the_reference :
  let st1 := run (host := RefHost.host) (mount INITIAL_TRANSFORM)
               [onTouchStart [touchAt 0 0 0; touchAt 1 100 0];
                onTouchMove [touchAt 0 0 0; touchAt 1 200 0]] in
  let st2 := dispatch (host := RefHost.host) st1 (onTouchEnd [touchAt 0 0 0]) in
  let st3 := dispatch (host := RefHost.host) st2 (onTouchMove [touchAt 0 30 40]) in
  initialGestureData st2 = None /\
  initialTransform st2 <> transform st1 /\
  transform st3 = transform st1.
Proof. vm_compute. repeat split. discriminate. Qed.

(** C4, as amended.  Every [touchstart], that is every transition that adds
    a finger, takes the transform as it stands as the new baseline and, with
    one or two fingers down, recomputes the reference from the touches of
    the event; the transform itself is untouched and a move that finds the
    fingers where they were put leaves [x] and [y] where they were.  Lifting
    a finger clears the reference: moves then change nothing until the next
    [touchstart]. *)
Theorem touch_start_rebases {host : MathHost} (touches : list DomTouch) (st : Overlay) :
  let st' := handleTouchStart touches st in
  (transform st' = transform st /\ initialTransform st' = transform st) /\
  (forall t0 t1, TouchMap.values (updateTouches touches) = [t0; t1] ->
     initialGestureData st' =
       Some {| distance := getDistance t0 t1; angle := getAngle t0 t1;
               center := getMidpoint t0 t1 |}) /\
  (forall p, TouchMap.values (updateTouches touches) = [p] ->
     initialGestureData st' =
       Some {| distance := of_Z 0; angle := of_Z 0;
               center := Point.mk (Touch.x p) (Touch.y p) |}) /\
  (forall g, initialGestureData st' = Some g ->
     is_finite (Point.x (center g)) = true ->
     is_finite (Point.y (center g)) = true ->
     is_finite (Transform.x (transform st)) = true ->
     is_finite (Transform.y (transform st)) = true ->
     let st'' := handleTouchMove touches st' in
     eqb (Transform.x (transform st'')) (Transform.x (transform st)) = true /\
     eqb (Transform.y (transform st'')) (Transform.y (transform st)) = true) /\
  (initialGestureData (handleTouchEnd st') = None /\
   forall touches', transform (handleTouchMove touches' (handleTouchEnd st'))
                    = transform st).
Proof.
  cbv zeta.
  split; [split; reflexivity|].
  split; [intros t0 t1 Hv; unfold handleTouchStart; rewrite Hv; reflexivity|].
  split; [intros p Hv; unfold handleTouchStart; rewrite Hv; reflexivity|].
  split.
  - intros g Hg Hcx Hcy Hx Hy. unfold handleTouchMove. rewrite Hg.
    unfold handleTouchStart in Hg. simpl in Hg.
    destruct (TouchMap.values (updateTouches touches)) as [|p0 [|p1 [|p2 l]]];
      simpl.
    + split; apply eqb_refl;
        [now destruct (Transform.x (transform st))
        |now destruct (Transform.y (transform st))].
    + injection Hg as <-. simpl in *.
      split; now apply rebased_move_keeps_position.
    + injection Hg as <-. simpl in *.
      split; now apply rebased_move_keeps_position.
    + split; apply eqb_refl;
        [now destruct (Transform.x (transform st))
        |now destruct (Transform.y (transform st))].
  - split; [reflexivity|].
    intros touches'. now rewrite handleTouchMove_no_reference.
Qed.

Lemma touch_start_rebases_witness :
  let moved := Transform.mk (of_Z 30) (of_Z 40) (of_Z 1) (of_Z 0) in
  let st := onTransformChange moved (mount INITIAL_TRANSFORM) in
  let touches := [touchAt 0 30 40; touchAt 1 130 40] in
  let st' := handleTouchStart (host := RefHost.host) touches st in
  initialTransform st' = moved /\
  eqb (Transform.x (transform (handleTouchMove (host := RefHost.host) touches st')))
      (of_Z 30) = true.
Proof.
  intros moved st touches st'.
  destruct (touch_start_rebases (host := RefHost.host) touches st)
    as ((_ & Hbase) & Href & _ & Hcont & _).
  split; [exact Hbase|].
  specialize (Href (Touch.mk 0 (of_Z 30) (of_Z 40))
                   (Touch.mk 1 (of_Z 130) (of_Z 40)) eq_refl).
  exact (proj1 (Hcont _ Href eq_refl eq_refl eq_refl eq_refl)).
Defined.

(** ** Claim C5 *)

(** C5, counterexample.  A reference taken with one finger, then a move
    reporting two fingers with no [touchstart] in between: the handler does
    not notice that the count changed and applies the two-touch update
    against the one-finger reference. *)
Lemma stale_reference_is_used :
  let st := run (host := RefHost.host) (mount INITIAL_TRANSFORM)
              [onTouchStart [touchAt 0 0 0]] in
  let st' := handleTouchMove (host := RefHost.host)
               [touchAt 0 0 0; touchAt 1 100 0] st in
  transform st' = Transform.mk (of_Z 50) (of_Z 0) (of_Z 5) (of_Z 0) /\
  transform st' <> transform st.
Proof. vm_compute. split; [reflexivity|discriminate]. Qed.

(** C5, as amended.  [handleTouchMove] leaves the transform unchanged
    whenever no reference exists, which is the case before any [touchstart]
    and after [handleTouchEnd], and whenever the number of active touches is
    zero or more than two.  (With one or two touches and a reference it
    updates, whatever the count was when the reference was taken.) *)
Theorem move_without_reference_or_touches {host : MathHost}
    (touches : list DomTouch) (st : Overlay) (tr : Transform.t) :
  initialGestureData (mount tr) = None /\
  initialGestureData (handleTouchEnd st) = None /\
  (initialGestureData st = None \/
   TouchMap.size (updateTouches touches) = 0%nat \/
   (2 < TouchMap.size (updateTouches touches))%nat ->
   transform (handleTouchMove touches st) = transform st).
Proof.
  split; [reflexivity|]. split; [reflexivity|].
  intros [Hnone | [Hzero | Hmany]].
  - now apply handleTouchMove_no_reference.
  - apply handleTouchMove_other_count; lia.
  - apply handleTouchMove_other_count; lia.
Qed.

Lemma move_without_reference_or_touches_witness :
  let st := run (host := RefHost.host) (mount INITIAL_TRANSFORM)
              [onTouchStart [touchAt 0 0 0; touchAt 1 100 0]] in
  transform (handleTouchMove (host := RefHost.host)
               [touchAt 0 5 5; touchAt 1 100 0; touchAt 2 50 50] st)
  = transform st.
Proof.
  intros st.
  apply (proj2 (proj2 (move_without_reference_or_touches (host := RefHost.host)
                         [touchAt 0 5 5; touchAt 1 100 0; touchAt 2 50 50]
                         st INITIAL_TRANSFORM))).
  right; right. vm_compute. lia.
Defined.

(** ** Claim C6 *)

(** C6.  A two-touch move publishes the rotation
    [baseline.rotation + (newAngle - referenceAngle)], with no reduction of
    the sum into [[-180, 180]]; the next [touchstart] takes the published
    rotation as its baseline.  So a gesture turning the fingers from -100 to
    100 degrees takes the rotation from 0 to 200, and a second one takes it
    from 200 to 400, not to 40. *)
Theorem rotation_accumulates {host : MathHost}
    (touches : list DomTouch) (st : Overlay) (t0 t1 : Touch.t) (g : GestureData) :
  TouchMap.values (updateTouches touches) = [t0; t1] ->
  initialGestureData st = Some g ->
  let st' := handleTouchMove touches st in
  Transform.rotation (transform st') =
    add (Transform.rotation (initialTransform st))
        (sub (getAngle t0 t1) (angle g)) /\
  (forall touches',
     Transform.rotation (initialTransform (handleTouchStart touches' st')) =
     Transform.rotation (transform st')) /\
  (forall (base : Transform.t) (initial : GestureData) (d : number) (c : Point.t),
     angle initial = of_Z (-100) ->
     (Transform.rotation base = of_Z 0 ->
      Transform.rotation (pinchTransform base initial d (of_Z 100) c) = of_Z 200) /\
     (Transform.rotation base = of_Z 200 ->
      Transform.rotation (pinchTransform base initial d (of_Z 100) c) = of_Z 400 /\
      Transform.rotation (pinchTransform base initial d (of_Z 100) c) <> of_Z 40)).
Proof.
  intros Hv Hg st'. subst st'.
  split; [rewrite (handleTouchMove_two _ _ _ _ _ Hv Hg); reflexivity|].
  split; [reflexivity|].
  intros base initial d c Hangle. unfold pinchTransform. cbn [Transform.rotation].
  rewrite Hangle. split; intros ->; [reflexivity|].
  split; [reflexivity|discriminate].
Qed.

Lemma rotation_accumulates_witness :
  let quarterDown := [touchAt 0 0 0; touchAt 1 0 (-1)] in
  let halfLeft := [touchAt 0 0 0; touchAt 1 (-1) 0] in
  let st1 := run (host := RefHost.host) (mount INITIAL_TRANSFORM)
               [onTouchStart quarterDown] in
  let st2 := run (host := RefHost.host) st1
               [onTouchMove halfLeft; onTouchEnd []; onTouchStart quarterDown] in
  Transform.rotation
    (transform (handleTouchMove (host := RefHost.host) halfLeft st1)) = of_Z 270 /\
  Transform.rotation
    (transform (handleTouchMove (host := RefHost.host) halfLeft st2)) = of_Z 540.
Proof.
  intros quarterDown halfLeft st1 st2.
  pose (t0 := Touch.mk 0 (of_Z 0) (of_Z 0)).
  pose (t1 := Touch.mk 1 (of_Z (-1)) (of_Z 0)).
  pose (g := {| distance := of_Z 1; angle := of_Z (-90);
                center := Point.mk (of_Z 0) (div (of_Z (-1)) (of_Z 2)) |}).
  split.
  - refine (eq_trans
              (proj1 (rotation_accumulates (host := RefHost.host)
                        halfLeft st1 t0 t1 g _ _)) _);
      vm_compute; reflexivity.
  - refine (eq_trans
              (proj1 (rotation_accumulates (host := RefHost.host)
                        halfLeft st2 t0 t1 g _ _)) _);
      vm_compute; reflexivity.
Defined.

(** ** Claim C7 *)

(** C7, counterexample.  From [(0,0)] the point [(1,0)] lies at angle [0];
    from [(1,0)] the point [(0,0)] lies at angle [180], whose opposite is
    not [0]. *)
Lemma angle_not_antisymmetric :
  let a := Touch.mk 0 (of_Z 0) (of_Z 0) in
  let b := Touch.mk 1 (of_Z 1) (of_Z 0) in
  getAngle (host := RefHost.host) a b = of_Z 0 /\
  getAngle (host := RefHost.host) b a = of_Z 180 /\
  getAngle (host := RefHost.host) a b <> neg (getAngle (host := RefHost.host) b a) /\
  eqb (getAngle (host := RefHost.host) a b)
      (neg (getAngle (host := RefHost.host) b a)) = false.
Proof. vm_compute. repeat split. discriminate. Qed.

(** C7, as amended.  For all points [a] and [b], [midpoint(a,b)] is
    [midpoint(b,a)] and, [Math.hypot] depending on the magnitudes of its
    arguments only, [distance(a,b)] is [distance(b,a)].  Exchanging the
    points reverses the vector, which turns the angle by a half-turn instead
    of negating it: with [Math.atan2] as ECMAScript fixes it on the
    horizontal axis, [angle((0,0),(1,0))] is [0] and [angle((1,0),(0,0))]
    is [180]. *)
Theorem geometry_symmetry {host : MathHost} :
  (forall u v, Math_hypot u v = Math_hypot (abs u) (abs v)) ->
  Math_atan2 (of_Z 0) (of_Z 1) = of_Z 0 ->
  Math_atan2 (of_Z 0) (of_Z (-1)) = Math_PI ->
  (forall a b : Touch.t,
     getMidpoint a b = getMidpoint b a /\ getDistance a b = getDistance b a) /\
  getAngle (Touch.mk 0 (of_Z 0) (of_Z 0)) (Touch.mk 1 (of_Z 1) (of_Z 0)) = of_Z 0 /\
  getAngle (Touch.mk 1 (of_Z 1) (of_Z 0)) (Touch.mk 0 (of_Z 0) (of_Z 0)) = of_Z 180.
Proof.
  intros Heven Hright Hleft. split; [|split].
  - intros a b. split.
    + unfold getMidpoint.
      now rewrite (add_comm (Touch.x a)), (add_comm (Touch.y a)).
    + unfold getDistance. rewrite Heven.
      rewrite (abs_sub_swap (Touch.x b)), (abs_sub_swap (Touch.y b)).
      now rewrite <- Heven.
  - unfold getAngle.
    change (Math_atan2 _ _) with (Math_atan2 (of_Z 0) (of_Z 1)).
    rewrite Hright. reflexivity.
  - unfold getAngle.
    change (Math_atan2 _ _) with (Math_atan2 (of_Z 0) (of_Z (-1))).
    rewrite Hleft. reflexivity.
Qed.

Lemma geometry_symmetry_witness :
  let a := Touch.mk 0 (of_Z 3) (of_Z 4) in
  let b := Touch.mk 1 (of_Z 0) (of_Z 0) in
  getDistance (host := RefHost.host) a b = of_Z 5 /\
  getDistance (host := RefHost.host) b a = of_Z 5.
Proof.
  intros a b.
  destruct (geometry_symmetry (host := RefHost.host)
              RefHost_hypot_abs eq_refl eq_refl) as (Hsym & _).
  rewrite <- (proj2 (Hsym a b)). split; reflexivity.
Defined.

(** ** Claim C8 *)




(** ** Claim C9 *)

(** C9.  Every frame composited for the coach carries exactly two glyphs:
    ["R"] 20 pixels from the left edge and ["L"] 50 pixels before the right
    edge, both at mid-height; the frame, and so the placement, is the same
    for the front and the back camera (and the placement is the same
    whatever the transform and whether a pose is loaded). *)
Theorem markers_fixed (vf : Viewfinder) (f : Frame) :
  videoTick vf = Some f ->
  markersOf f =
    [ ("R"%string, of_Z 20, div (of_Z (height f)) (of_Z 2));
      ("L"%string, sub (of_Z (width f)) (of_Z 50), div (of_Z (height f)) (of_Z 2)) ] /\
  (forall m, videoTick (setFacingMode m vf) = Some f) /\
  (forall vf', videoRef vf' = videoRef vf -> context2d vf' = context2d vf ->
     exists f', videoTick vf' = Some f' /\ markersOf f' = markersOf f).
Proof.
  unfold videoTick. intros H.
  destruct (videoRef vf) as [[videoW videoH]|] eqn:Hv; [|discriminate].
  destruct (context2d vf) eqn:Hc; [|discriminate].
  injection H as <-. split; [|split].
  - unfold markersOf. cbn [ops width height].
    destruct (poseImageRef vf); reflexivity.
  - intros m. simpl. rewrite Hv, Hc. reflexivity.
  - intros vf' Hv' Hc'. rewrite Hv', Hc'. eexists. split; [reflexivity|].
    unfold markersOf. cbn [ops width height].
    destruct (poseImageRef vf), (poseImageRef vf'); reflexivity.
Qed.

Lemma markers_fixed_witness :
  option_map markersOf (videoTick (hdViewfinder user)) =
    Some [ ("R"%string, of_Z 20, of_Z 180); ("L"%string, of_Z 590, of_Z 180) ] /\
  videoTick (hdViewfinder environment) = videoTick (hdViewfinder user).
Proof.
  assert (Hsome : exists f, videoTick (hdViewfinder user) = Some f)
    by (vm_compute; eexists; reflexivity).
  destruct Hsome as [f Hf].
  destruct (markers_fixed (hdViewfinder user) f Hf) as (Hm & Hfacing & _).
  change (hdViewfinder environment)
    with (setFacingMode environment (hdViewfinder user)).
  rewrite (Hfacing environment), Hf. split; [|reflexivity].
  cbn [option_map]. rewrite Hm.
  vm_compute in Hf. injection Hf as <-. vm_compute. reflexivity.
Defined.

(** ** Claim C10 *)

(** C10.  Every sample of the input buffer is clamped to [[-1, 1]] (NaN
    stays NaN) before it is scaled by [32767]; the scaled value has its
    integer part in [[-32767, 32767]], so the store into the [Int16Array]
    keeps that integer as it is, with no wrap-around, and the output has one
    sample per input sample. *)
Theorem pcm_samples_in_range (inputData : list number) :
  Forall (fun x => valid x = true) inputData ->
  List.length (pcmData inputData) = List.length inputData /\
  Forall (fun s => -32767 <= s <= 32767) (pcmData inputData) /\
  Forall (fun x =>
            (is_nan x = false ->
             leb (of_Z (-1)) (clampSample x) = true /\
             leb (clampSample x) (of_Z 1) = true) /\
            ToInt16 (scaleSample x) = truncate (scaleSample x))
         inputData.
Proof.
  intros Hvalid. unfold pcmData.
  split; [apply length_map|].
  induction Hvalid as [|x rest Hx Hrest [IHrange IHclamp]]; [split; constructor|].
  destruct (scaleSample_int16 x Hx) as [Hint Hrange].
  split.
  - cbn [map]. constructor; assumption.
  - constructor; [|assumption]. split; [|assumption].
    intros Hnan. now destruct (clampSample_cases x Hnan) as (_ & Hlo & Hhi).
Qed.

Lemma pcm_samples_in_range_witness :
  pcmData [lit_0_5; of_Z 2; of_Z (-3); NaN; neg Infinity]
    = [16383; 32767; -32767; 0; -32767] /\
  Forall (fun s => -32767 <= s <= 32767)
    (pcmData [lit_0_5; of_Z 2; of_Z (-3); NaN; neg Infinity]).
Proof.
  split; [reflexivity|].
  apply (pcm_samples_in_range [lit_0_5; of_Z 2; of_Z (-3); NaN; neg Infinity]).
  repeat constructor.
Defined.

(** * Further properties *)

(** ** The active-touch map *)

Lemma TouchMap_set_keys (k : Z) (v : Touch.t) (m : TouchMap.t) :
  map fst (TouchMap.set k v m) =
    if existsb (Z.eqb k) (map fst m) then map fst m else map fst m ++ [k].
Proof.
  induction m as [|[k' v'] rest IH]; [reflexivity|].
  cbn [TouchMap.set map fst existsb].
  destruct (Z.eqb_spec k k') as [->|Hne]; [reflexivity|].
  cbn [map fst orb]. rewrite IH.
  destruct (existsb (Z.eqb k) (map fst rest)); reflexivity.
Qed.

Lemma TouchMap_set_fresh (k : Z) (v : Touch.t) (m : TouchMap.t) :
  ~ In k (map fst m) -> TouchMap.set k v m = m ++ [(k, v)].
Proof.
  induction m as [|[k' v'] rest IH]; intros Hfresh; [reflexivity|].
  cbn [TouchMap.set]. cbn [map fst In] in Hfresh.
  destruct (Z.eqb_spec k k') as [->|Hne]; [tauto|].
  rewrite IH by tauto. reflexivity.
Qed.

Lemma TouchMap_set_NoDup (k : Z) (v : Touch.t) (m : TouchMap.t) :
  NoDup (map fst m) -> NoDup (map fst (TouchMap.set k v m)).
Proof.
  intros Hm. rewrite TouchMap_set_keys.
  destruct (existsb (Z.eqb k) (map fst m)) eqn:Hex; [assumption|].
  apply NoDup_app; [assumption|repeat constructor; intros []|].
  intros x Hx [Hk|[]]. subst x.
  assert (Habs : existsb (Z.eqb k) (map fst m) = true).
  { apply existsb_exists. exists k. split; [assumption|apply Z.eqb_refl]. }
  congruence.
Qed.

Lemma updateTouches_from (touches : list DomTouch) (m : TouchMap.t) :
  NoDup (map fst m ++ map identifier touches) ->
  fold_left
    (fun m t =>
       TouchMap.set (identifier t)
         (Touch.mk (identifier t) (clientX t) (clientY t)) m)
    touches m
  = m ++ map (fun t => (identifier t, touchState t)) touches.
Proof.
  revert m. induction touches as [|t rest IH]; intros m Hnodup.
  - cbn. now rewrite app_nil_r.
  - cbn [fold_left map]. rewrite TouchMap_set_fresh.
    + rewrite IH.
      * rewrite <- app_assoc. reflexivity.
      * rewrite map_app. cbn [map fst]. rewrite <- app_assoc. exact Hnodup.
    + cbn [map] in Hnodup. apply NoDup_remove_2 in Hnodup.
      intros Hin. apply Hnodup. apply in_or_app. now left.
Qed.

(** X1.  The map built from [event.touches] has one entry per touch
    identifier, and when the identifiers of the event are distinct (as the
    DOM guarantees) its values are the touches of the event in their order:
    [points[0]] and [points[1]] are [touches[0]] and [touches[1]]. *)
Theorem updateTouches_keeps_order (touches : list DomTouch) :
  NoDup (map fst (updateTouches touches)) /\
  (NoDup (map identifier touches) ->
   TouchMap.values (updateTouches touches) = map touchState touches /\
   TouchMap.size (updateTouches touches) = List.length touches).
Proof.
  split.
  - unfold updateTouches.
    assert (H : forall m, NoDup (map fst m) ->
              NoDup (map fst (fold_left
                (fun m t => TouchMap.set (identifier t)
                   (Touch.mk (identifier t) (clientX t) (clientY t)) m)
                touches m))).
    { induction touches as [|t rest IH]; intros m Hm; [exact Hm|].
      cbn [fold_left]. apply IH. now apply TouchMap_set_NoDup. }
    apply H. constructor.
  - intros Hnodup. unfold updateTouches.
    rewrite updateTouches_from by exact Hnodup.
    unfold TouchMap.values, TouchMap.size, TouchMap.empty. cbn [app].
    rewrite map_map, length_map. cbn [snd]. split; reflexivity.
Qed.

Lemma updateTouches_keeps_order_witness :
  TouchMap.values (updateTouches [touchAt 7 1 2; touchAt 3 4 5])
    = [Touch.mk 7 (of_Z 1) (of_Z 2); Touch.mk 3 (of_Z 4) (of_Z 5)].
Proof.
  refine (proj1 (proj2 (updateTouches_keeps_order [touchAt 7 1 2; touchAt 3 4 5]) _)).
  repeat constructor; cbn; intuition discriminate.
Defined.

(** ** Gesture traces *)

Section GestureTraces.
Context {host : MathHost}.

(** X2.  Moves are absolute against the baseline, not incremental:
    delivering the same touches again changes nothing (no drift). *)
Theorem handleTouchMove_idempotent (touches : list DomTouch) (st : Overlay) :
  handleTouchMove touches (handleTouchMove touches st)
  = handleTouchMove touches st.
Proof.
  unfold handleTouchMove.
  destruct (TouchMap.values (updateTouches touches)) as [|p0 [|p1 [|p2 l]]];
    destruct (initialGestureData st); reflexivity.
Qed.

Lemma handleTouchMove_keeps_baseline (touches : list DomTouch) (st : Overlay) :
  initialGestureData (handleTouchMove touches st) = initialGestureData st /\
  initialTransform (handleTouchMove touches st) = initialTransform st.
Proof.
  unfold handleTouchMove.
  destruct (TouchMap.values (updateTouches touches)) as [|p0 [|p1 [|p2 l]]];
    destruct (initialGestureData st); split; reflexivity.
Qed.

(** X3.  The last move wins.  A two-touch move gives the same state whatever
    move came before it, and a one-touch move gives the same position
    whatever move came before it, keeping the scale and rotation that move
    left. *)
Theorem last_move_wins (before touches : list DomTouch) (st : Overlay) :
  (forall t0 t1, TouchMap.values (updateTouches touches) = [t0; t1] ->
     handleTouchMove touches (handleTouchMove before st)
     = handleTouchMove touches st) /\
  (forall t g, TouchMap.values (updateTouches touches) = [t] ->
     initialGestureData st = Some g ->
     let st1 := handleTouchMove before st in
     let st2 := handleTouchMove touches st1 in
     Transform.x (transform st2) = Transform.x (transform (handleTouchMove touches st)) /\
     Transform.y (transform st2) = Transform.y (transform (handleTouchMove touches st)) /\
     Transform.scale (transform st2) = Transform.scale (transform st1) /\
     Transform.rotation (transform st2) = Transform.rotation (transform st1)).
Proof.
  destruct (handleTouchMove_keeps_baseline before st) as [Href Hbase].
  split.
  - intros t0 t1 Hv. unfold handleTouchMove at 1 3. rewrite Hv, Href, Hbase.
    destruct (initialGestureData st) eqn:Hg; [reflexivity|].
    now rewrite (handleTouchMove_no_reference before st Hg).
  - intros t g Hv Hg st1 st2. subst st1 st2.
    rewrite (handleTouchMove_one touches (handleTouchMove before st) t g Hv)
      by (now rewrite Href).
    rewrite (handleTouchMove_one touches st t g Hv Hg).
    rewrite Hbase. repeat split; reflexivity.
Qed.

(** X4.  Only [touchmove] publishes a transform: a trace of [touchstart],
    [touchend] and [touchcancel] events leaves it as it was. *)
Theorem transform_changes_on_moves_only (events : list TouchEvent) (st : Overlay) :
  forallb (fun e => negb (isMove e)) events = true ->
  transform (run st events) = transform st.
Proof.
  unfold run. revert st. induction events as [|e rest IH]; intros st Hall.
  - reflexivity.
  - cbn [forallb] in Hall. apply andb_true_iff in Hall. destruct Hall as [He Hrest].
    cbn [fold_left]. rewrite IH by exact Hrest.
    destruct e; try discriminate; reflexivity.
Qed.

Lemma dispatch_scaleClamped (st : Overlay) (e : TouchEvent) :
  scaleClamped (Transform.scale (transform st)) ->
  scaleClamped (Transform.scale (transform (dispatch st e))).
Proof.
  intros Hst. destruct e as [touches|touches|touches|touches];
    cbn [dispatch]; try exact Hst.
  unfold handleTouchMove.
  destruct (TouchMap.values (updateTouches touches)) as [|p0 [|p1 [|p2 l]]];
    destruct (initialGestureData st) as [g|]; try exact Hst.
  cbn [onTransformChange transform pinchTransform Transform.scale].
  unfold scaleClamped.
  destruct (is_nan (mul (Transform.scale (initialTransform st))
                        (div (getDistance p0 p1) (distance g)))) eqn:Hnan.
  - left. now rewrite clampScale_nan.
  - right. now apply clampScale_bounds.
Qed.

(** X5.  Over every trace of touch events the published scale stays what
    the clamp makes it: within [[0.2, 5]], or NaN. *)
Theorem scale_stays_clamped (events : list TouchEvent) (st : Overlay) :
  scaleClamped (Transform.scale (transform st)) ->
  scaleClamped (Transform.scale (transform (run st events))).
Proof.
  unfold run. revert st. induction events as [|e rest IH]; intros st Hst.
  - exact Hst.
  - cbn [fold_left]. apply IH. now apply dispatch_scaleClamped.
Qed.

(** X6.  A one-finger drag is a pure translation: after any number of
    one-finger moves the overlay is displaced by the vector from the point
    where the finger was put down to where it is now, and scale and rotation
    are untouched. *)
Theorem pan_follows_finger (down : DomTouch) (path : list DomTouch) (last : DomTouch)
    (st : Overlay) :
  let st' := run (handleTouchStart [down] st)
               (map (fun t => onTouchMove [t]) (path ++ [last])) in
  transform st' =
    Transform.mk
      (add (Transform.x (transform st)) (sub (clientX last) (clientX down)))
      (add (Transform.y (transform st)) (sub (clientY last) (clientY down)))
      (Transform.scale (transform st))
      (Transform.rotation (transform st)).
Proof.
  cbv zeta.
  set (g := {| distance := of_Z 0; angle := of_Z 0;
               center := Point.mk (clientX down) (clientY down) |}).
  assert (Hinv : forall (path : list DomTouch) (s : Overlay),
             initialGestureData s = Some g ->
             initialTransform s = transform st ->
             Transform.scale (transform s) = Transform.scale (transform st) ->
             Transform.rotation (transform s) = Transform.rotation (transform st) ->
             transform (run s (map (fun t => onTouchMove [t]) (path ++ [last]))) =
               Transform.mk
                 (add (Transform.x (transform st)) (sub (clientX last) (clientX down)))
                 (add (Transform.y (transform st)) (sub (clientY last) (clientY down)))
                 (Transform.scale (transform st))
                 (Transform.rotation (transform st))).
  { clear path. induction path as [|t rest IH]; intros s Hg Hbase Hscale Hrot.
    - cbn. unfold handleTouchMove. cbn. rewrite Hg. cbn.
      unfold panTransform. cbn. now rewrite Hbase, Hscale, Hrot.
    - cbn [app map]. unfold run in *. cbn [fold_left dispatch].
      apply IH; unfold handleTouchMove; cbn; rewrite Hg; cbn; auto. }
  apply Hinv; reflexivity.
Qed.

End GestureTraces.

Lemma scale_stays_clamped_witness :
  scaleClamped
    (Transform.scale
       (transform (run (host := RefHost.host) (mount INITIAL_TRANSFORM)
                     [onTouchStart pinchStart; onTouchMove pinchMove;
                      onTouchEnd []; onTouchStart [touchAt 0 5 5];
                      onTouchMove [touchAt 0 9 9]]))).
Proof.
  apply (scale_stays_clamped (host := RefHost.host)).
  right. split; reflexivity.
Defined.

Lemma transform_changes_on_moves_only_witness :
  transform (run (host := RefHost.host) (mount INITIAL_TRANSFORM)
               [onTouchStart pinchStart; onTouchEnd []; onTouchCancel []])
  = INITIAL_TRANSFORM.
Proof.
  apply (transform_changes_on_moves_only (host := RefHost.host)
           [onTouchStart pinchStart; onTouchEnd []; onTouchCancel []]
           (mount INITIAL_TRANSFORM)).
  reflexivity.
Defined.

(** ** Zoom slider *)

Lemma leb_zero_any (a b c : number) :
  is_zero a = true -> is_zero b = true -> leb a c = leb b c /\ leb c a = leb c b.
Proof.
  destruct a, b; try discriminate; intros _ _; destruct c; split; reflexivity.
Qed.

(** [Math.max(lo, Math.min(hi, v))] is within [[lo, hi]] when [lo <= hi]
    and [v] is a number. *)
Lemma clamp_between (lo hi v : number) :
  leb lo hi = true -> is_nan v = false ->
  leb lo (Math_max lo (Math_min hi v)) = true /\
  leb (Math_max lo (Math_min hi v)) hi = true.
Proof.
  intros Hle Hv.
  assert (Hlo : is_nan lo = false) by (destruct lo; try reflexivity; discriminate).
  assert (Hhi : is_nan hi = false) by (destruct lo, hi; try reflexivity; discriminate).
  assert (Hn1 : is_nan hi || is_nan v = false) by now rewrite Hhi, Hv.
  destruct (Math_min_spec hi v Hn1) as (Hmin_hi & _ & Hmin).
  assert (Hn2 : is_nan lo || is_nan (Math_min hi v) = false).
  { now rewrite Math_min_nan, Hlo, Hhi, Hv. }
  destruct (Math_max_spec lo (Math_min hi v) Hn2) as (Hmax_lo & _ & Hmax).
  split; [assumption|].
  destruct Hmax as [-> | [-> | (Hz1 & Hz2 & Hz3)]]; try assumption.
  destruct (leb_zero_any _ _ hi Hz3 Hz2) as [-> _]. assumption.
Qed.

Lemma cyclePresets_filter (p : ZoomSlider.Props) :
  ZoomSlider.cyclePresets p =
    filter (ZoomSlider.inRange p) [lit_0_5; of_Z 1; of_Z 2; of_Z 5].
Proof.
  unfold ZoomSlider.cyclePresets.
  change (leb (ZoomSlider.minZoom p) (of_Z 1) && leb (of_Z 1) (ZoomSlider.maxZoom p))
    with (ZoomSlider.inRange p (of_Z 1)).
  cbn [filter].
  rewrite <- andb_assoc.
  change (leb (ZoomSlider.minZoom p) (of_Z 1) && leb (of_Z 1) (ZoomSlider.maxZoom p))
    with (ZoomSlider.inRange p (of_Z 1)).
  destruct (ZoomSlider.inRange p lit_0_5), (ZoomSlider.inRange p (of_Z 1)),
    (ZoomSlider.inRange p (of_Z 2)), (ZoomSlider.inRange p (of_Z 5));
    vm_compute; reflexivity.
Qed.

(** X7.  The presets a tap cycles through are those of [0.5, 1, 2, 5] that
    the camera supports, in ascending order: the [push(1)] of the source
    never fires and the sort changes nothing. *)
Theorem cyclePresets_in_range (p : ZoomSlider.Props) :
  ZoomSlider.cyclePresets p =
    filter (ZoomSlider.inRange p) [lit_0_5; of_Z 1; of_Z 2; of_Z 5] /\
  Forall (fun z => leb (ZoomSlider.minZoom p) z = true /\
                   leb z (ZoomSlider.maxZoom p) = true)
         (ZoomSlider.cyclePresets p).
Proof.
  pose proof (cyclePresets_filter p) as Heq.
  split; [exact Heq|].
  rewrite Heq. apply Forall_forall. intros z Hz.
  apply filter_In in Hz. destruct Hz as [_ Hz].
  unfold ZoomSlider.inRange in Hz. now apply andb_true_iff in Hz.
Qed.

(** X8.  While scrubbing, every move hands [onZoomChange] one zoom level,
    and it lies within [[minZoom, maxZoom]]; a move that finds the slider not
    scrubbing (a tap in progress, or the move that crosses the 5 pixel
    threshold) changes no zoom. *)
Theorem scrub_zoom_in_range (canVibrate : bool) (p : ZoomSlider.Props)
    (t : DomTouch) (others : list DomTouch) (st : ZoomSlider.State) :
  leb (ZoomSlider.minZoom p) (ZoomSlider.maxZoom p) = true ->
  is_nan (add (ZoomSlider.startZoom st)
              (mul (sub (clientX t) (ZoomSlider.startX st)) ZoomSlider.lit_0_01)) = false ->
  exists st' effects,
    ZoomSlider.handleTouchMove canVibrate p (t :: others) st = Some (st', effects) /\
    (ZoomSlider.isScrubbing st = false -> ZoomSlider.zoomChanges effects = []) /\
    (ZoomSlider.isScrubbing st = true ->
     exists z, ZoomSlider.zoomChanges effects = [Some z] /\
               leb (ZoomSlider.minZoom p) z = true /\
               leb z (ZoomSlider.maxZoom p) = true).
Proof.
  intros Hrange Hnum. unfold ZoomSlider.handleTouchMove.
  destruct (ZoomSlider.isScrubbing st) eqn:Hscrub.
  - eexists. eexists. split; [reflexivity|]. split; [discriminate|]. intros _.
    cbn [negb andb app].
    eexists. split.
    + unfold ZoomSlider.zoomChanges. cbn [flat_map app].
      destruct (_ && canVibrate); reflexivity.
    + now apply clamp_between.
  - eexists. eexists. split; [reflexivity|]. split; [|discriminate]. intros _.
    cbn [negb andb].
    destruct (ltb (of_Z 5) _); [|reflexivity].
    destruct (ZoomSlider.scrubTimeoutRef st); reflexivity.
Qed.

Lemma presets_truthy_ascending (f : number -> bool) :
  Forall truthy (filter f [lit_0_5; of_Z 1; of_Z 2; of_Z 5]) /\
  ascending (filter f [lit_0_5; of_Z 1; of_Z 2; of_Z 5]).
Proof.
  cbn [filter]. unfold ascending.
  destruct (f lit_0_5), (f (of_Z 1)), (f (of_Z 2)), (f (of_Z 5));
    split; repeat constructor.
Qed.

(** The first element above [zoom] of an ascending list is the smallest
    one above [zoom]. *)
Lemma find_above_ascending (zoom : number) (l : list number) :
  ascending l ->
  match find (fun z => ltb zoom z) l with
  | Some z => In z l /\ ltb zoom z = true /\
              forall z', In z' l -> ltb zoom z' = true -> leb z z' = true
  | None => forall z', In z' l -> ltb zoom z' = false
  end.
Proof.
  unfold ascending. induction 1 as [|a rest Hrest IH Ha]; cbn [find].
  - intros z' [].
  - destruct (ltb zoom a) eqn:Hlt.
    + split; [now left|]. split; [exact Hlt|].
      intros z' [<- | Hin] Hz'.
      * apply leb_refl. destruct zoom, a; try reflexivity; discriminate.
      * rewrite Forall_forall in Ha. now apply Ha.
    + destruct (find (fun z => ltb zoom z) rest) as [z|].
      * destruct IH as (Hin & Hz & Hmin). split; [now right|]. split; [exact Hz|].
        intros z' [<- | Hin'] Hz'; [congruence|now apply Hmin].
      * intros z' [<- | Hin]; [exact Hlt|now apply IH].
Qed.

(** From the [i]-th preset, the tap goes to the next preset, cyclically. *)
Lemma tap_from_preset (f : number -> bool) (i : nat) (zoom : number) :
  let l := filter f [lit_0_5; of_Z 1; of_Z 2; of_Z 5] in
  nth_error l i = Some zoom ->
  match find (fun z => ltb zoom z) l with
  | Some z => if is_zero z || is_nan z then hd_error l else Some z
  | None => hd_error l
  end = nth_error l (S i mod List.length l)%nat.
Proof.
  cbn [filter].
  destruct (f lit_0_5), (f (of_Z 1)), (f (of_Z 2)), (f (of_Z 5)); intros Hi;
    do 5 (try (destruct i as [|i]; cbn in Hi; try discriminate Hi));
    injection Hi as <-; vm_compute; reflexivity.
Qed.

(** X9.  Taps cycle through the presets: from a preset a tap goes to the
    next larger one and from the largest back to the smallest; from any
    zoom level it goes to the smallest preset above it if there is one, and
    to the smallest preset otherwise.  With no preset in range the tap hands
    [undefined] to [onZoomChange]. *)
Theorem tap_cycles_presets (canVibrate : bool) (timerId : Z)
    (p : ZoomSlider.Props) (st : ZoomSlider.State) :
  ZoomSlider.isScrubbing st = false ->
  let presets := ZoomSlider.cyclePresets p in
  ZoomSlider.zoomChanges (snd (ZoomSlider.handleTouchEnd canVibrate timerId p st))
    = [ZoomSlider.nextPreset p] /\
  (presets = [] <-> ZoomSlider.nextPreset p = None) /\
  (forall z, ZoomSlider.nextPreset p = Some z ->
     In z presets /\
     (ltb (ZoomSlider.zoomLevel p) z = true ->
      forall z', In z' presets -> ltb (ZoomSlider.zoomLevel p) z' = true ->
                 leb z z' = true) /\
     (ltb (ZoomSlider.zoomLevel p) z = false ->
      hd_error presets = Some z /\
      forall z', In z' presets -> ltb (ZoomSlider.zoomLevel p) z' = false)) /\
  (forall i, nth_error presets i = Some (ZoomSlider.zoomLevel p) ->
     ZoomSlider.nextPreset p
     = nth_error presets (S i mod List.length presets)%nat).
Proof.
  intros Hscrub presets.
  split.
  { unfold ZoomSlider.handleTouchEnd. rewrite Hscrub. cbn [negb snd].
    unfold ZoomSlider.zoomChanges. cbn [flat_map app].
    destruct canVibrate; reflexivity. }
  unfold ZoomSlider.nextPreset. fold presets.
  pose proof (cyclePresets_filter p) as Heq. fold presets in Heq.
  destruct (presets_truthy_ascending (ZoomSlider.inRange p)) as [Htruthy Hasc].
  rewrite <- Heq in Htruthy, Hasc.
  pose proof (find_above_ascending (ZoomSlider.zoomLevel p) presets Hasc) as Hfind.
  pose proof (tap_from_preset (ZoomSlider.inRange p)) as Hcycle.
  cbv zeta in Hcycle. rewrite <- Heq in Hcycle.
  clearbody presets. clear Heq.
  split; [|split].
  - destruct (find _ presets) as [z|] eqn:Hf.
    + destruct Hfind as (Hin & _ & _).
      rewrite Forall_forall in Htruthy. rewrite (Htruthy z Hin).
      split; [intros ->; destruct Hin|discriminate].
    + destruct presets; [tauto|]. split; discriminate.
  - intros z Hz.
    destruct (find _ presets) as [w|] eqn:Hf.
    + destruct Hfind as (Hin & Hlt & Hmin).
      rewrite Forall_forall in Htruthy. rewrite (Htruthy w Hin) in Hz.
      injection Hz as <-. split; [exact Hin|]. split; [intros _; exact Hmin|congruence].
    + split; [destruct presets; [discriminate|injection Hz as <-; now left]|].
      split.
      * intros Hlt. destruct presets; [discriminate|]. injection Hz as <-.
        rewrite (Hfind n) in Hlt by now left. discriminate.
      * intros _. split; [exact Hz|exact Hfind].
  - intros i Hi. apply Hcycle. exact Hi.
Qed.

Lemma scrub_zoom_in_range_witness :
  let p := {| ZoomSlider.zoomLevel := of_Z 1; ZoomSlider.minZoom := of_Z 1;
              ZoomSlider.maxZoom := of_Z 5 |} in
  let st := {| ZoomSlider.isScrubbing := true; ZoomSlider.startX := of_Z 100;
               ZoomSlider.startZoom := of_Z 1; ZoomSlider.lastHapticZoom := of_Z 1;
               ZoomSlider.scrubTimeoutRef := None |} in
  exists st' effects,
    ZoomSlider.handleTouchMove true p [touchAt 0 900 0] st = Some (st', effects) /\
    ZoomSlider.zoomChanges effects = [Some (of_Z 5)].
Proof.
  intros p st.
  destruct (scrub_zoom_in_range true p (touchAt 0 900 0) [] st eq_refl eq_refl)
    as (st' & effects & Hrun & _ & _).
  exists st', effects. split; [exact Hrun|].
  vm_compute in Hrun. injection Hrun as _ <-. reflexivity.
Defined.

Lemma tap_cycles_presets_witness :
  let p := {| ZoomSlider.zoomLevel := of_Z 5; ZoomSlider.minZoom := lit_0_5;
              ZoomSlider.maxZoom := of_Z 8 |} in
  ZoomSlider.nextPreset p = Some lit_0_5.
Proof.
  intros p.
  pose (st := {| ZoomSlider.isScrubbing := false; ZoomSlider.startX := of_Z 0;
                 ZoomSlider.startZoom := of_Z 5; ZoomSlider.lastHapticZoom := of_Z 0;
                 ZoomSlider.scrubTimeoutRef := None |}).
  destruct (tap_cycles_presets true 1 p st eq_refl) as (_ & _ & _ & Hcycle).
  exact (Hcycle 3%nat eq_refl).
Defined.

(** ** The gallery *)

Lemma splice_one_inside (A : Type) (l : list A) (i : Z) :
  0 <= i < Z.of_nat (List.length l) ->
  Gallery.splice l i 1 = firstn (Z.to_nat i) l ++ skipn (S (Z.to_nat i)) l.
Proof.
  intros Hi. unfold Gallery.splice.
  destruct (i <? 0) eqn:Hneg; [apply Z.ltb_lt in Hneg; lia|].
  replace (Z.min i (Z.of_nat (List.length l))) with i by lia.
  replace (i + Z.min (Z.max 1 0) (Z.of_nat (List.length l) - i)) with (i + 1) by lia.
  replace (Z.to_nat (i + 1)) with (S (Z.to_nat i)) by lia.
  reflexivity.
Qed.

Lemma splice_one_length (A : Type) (l : list A) (i : Z) :
  0 <= i < Z.of_nat (List.length l) ->
  Z.of_nat (List.length (Gallery.splice l i 1)) = Z.of_nat (List.length l) - 1.
Proof.
  intros Hi. rewrite splice_one_inside by exact Hi.
  rewrite length_app, length_firstn, length_skipn. lia.
Qed.

Lemma deletePhoto_consistent (st : Gallery.State) (i : Z) :
  Gallery.consistent st ->
  Gallery.selectedImageIndex st = Some i ->
  Gallery.consistent (Gallery.deletePhoto i st).
Proof.
  intros [Hsel Hclosed] Hi. pose proof (Hsel _ Hi) as Hr.
  unfold Gallery.deletePhoto.
  pose proof (splice_one_length _ (Gallery.gallery st) i Hr) as Hlen.
  destruct (Z.of_nat (List.length (Gallery.splice (Gallery.gallery st) i 1)) =? 0) eqn:He.
  - split; simpl; [discriminate | reflexivity].
  - apply Z.eqb_neq in He. rewrite Hi. split; simpl.
    + intros s Hs. injection Hs as <-. lia.
    + intros Hc. apply Hclosed in Hc. congruence.
Qed.

Lemma step_consistent (st : Gallery.State) (a : Gallery.Action) :
  Gallery.consistent st -> Gallery.consistent (Gallery.step st a).
Proof.
  intros Hc. pose proof Hc as [Hsel Hclosed].
  unfold Gallery.step, Gallery.renderGallery.
  destruct a.
  - (* open *)
    split; simpl; [exact Hsel | discriminate].
  - (* close *)
    destruct (Gallery.isGalleryOpen st) eqn:Hopen; simpl; [|exact Hc].
    destruct (Gallery.selectedImageIndex st) as [s|] eqn:Hs; [exact Hc|].
    split; simpl; [discriminate | reflexivity].
  - (* select *)
    destruct (Gallery.isGalleryOpen st) eqn:Hopen; simpl; [|exact Hc].
    destruct (Gallery.selectedImageIndex st) as [s|] eqn:Hs; [exact Hc|].
    destruct ((0 <=? idx) && (idx <? Z.of_nat (List.length (Gallery.gallery st)))) eqn:Hidx;
      [|exact Hc].
    split; simpl; [|discriminate].
    intros s Hs'. injection Hs' as <-.
    apply andb_prop in Hidx as [H0 H1].
    apply Z.leb_le in H0. apply Z.ltb_lt in H1. lia.
  - (* back *)
    destruct (Gallery.isGalleryOpen st) eqn:Hopen; simpl; [|exact Hc].
    destruct (Gallery.selectedImageIndex st) as [s|] eqn:Hs; [|exact Hc].
    split; simpl; [discriminate | reflexivity].
  - (* delete *)
    destruct (Gallery.isGalleryOpen st) eqn:Hopen; simpl; [|exact Hc].
    destruct (Gallery.selectedImageIndex st) as [s|] eqn:Hs; [|exact Hc].
    apply deletePhoto_consistent; assumption.
  - (* a photo arrives *)
    split; simpl; [|exact Hclosed].
    intros s Hs. specialize (Hsel _ Hs). rewrite length_app. simpl. lia.
Qed.

Lemma run_consistent (actions : list Gallery.Action) (st : Gallery.State) :
  Gallery.consistent st -> Gallery.consistent (Gallery.run st actions).
Proof.
  revert st. induction actions as [|a actions IH]; intros st Hc; [exact Hc|].
  apply IH, step_consistent, Hc.
Qed.

Lemma initial_consistent : Gallery.consistent Gallery.initial.
Proof. split; simpl; [discriminate | reflexivity]. Qed.

(** X10. Whatever the user does in the gallery and whenever captures
    complete, the review screen shows a photo of the gallery (its image
    source is never [undefined]), and a gallery that is closed opens on the
    grid. *)
Theorem gallery_review_shows_a_photo (actions : list Gallery.Action) :
  let st := Gallery.run Gallery.initial actions in
  (forall src, Gallery.renderGallery st = Gallery.review src ->
     exists photo, src = Some photo /\ In photo (Gallery.gallery st))
  /\ (Gallery.isGalleryOpen st = false ->
      Gallery.renderGallery (Gallery.step st Gallery.onOpenGallery)
      = Gallery.grid (Gallery.gallery st)).
Proof.
  intros st.
  destruct (run_consistent actions _ initial_consistent) as [Hsel Hclosed].
  fold st in Hsel, Hclosed. split.
  - intros src. unfold Gallery.renderGallery.
    destruct (Gallery.isGalleryOpen st); simpl; [|discriminate].
    destruct (Gallery.selectedImageIndex st) as [s|] eqn:Hs; [|discriminate].
    intros Hr. injection Hr as <-. specialize (Hsel _ eq_refl).
    unfold Gallery.at_index.
    destruct (s <? 0) eqn:Hneg; [apply Z.ltb_lt in Hneg; lia|].
    destruct (nth_error (Gallery.gallery st) (Z.to_nat s)) as [photo|] eqn:Hn.
    + exists photo. split; [reflexivity | eapply nth_error_In, Hn].
    + apply nth_error_None in Hn. lia.
  - intros Hc. specialize (Hclosed Hc).
    unfold Gallery.renderGallery, Gallery.step. simpl. rewrite Hclosed. reflexivity.
Qed.

(** X11. Deleting the photo under review removes that photo and no other;
    the review moves to the photo that followed it, to the one before it
    when it was the last, and the gallery closes when it was the only one. *)
Theorem delete_shows_neighbour (st : Gallery.State)
    (before after : list string) (photo : string) :
  Gallery.isGalleryOpen st = true ->
  Gallery.gallery st = before ++ photo :: after ->
  Gallery.selectedImageIndex st = Some (Z.of_nat (List.length before)) ->
  let st' := Gallery.step st Gallery.deleteSelected in
  Gallery.gallery st' = before ++ after
  /\ Gallery.renderGallery st'
     = match after, rev before with
       | next :: _, _ => Gallery.review (Some next)
       | [], previous :: _ => Gallery.review (Some previous)
       | [], [] => Gallery.hidden
       end.
Proof.
  intros Hopen Hg Hs st'.
  assert (Hsplice : Gallery.splice (Gallery.gallery st) (Z.of_nat (List.length before)) 1
                    = before ++ after).
  { rewrite splice_one_inside by (rewrite Hg, length_app; simpl; lia).
    rewrite Nat2Z.id, Hg.
    f_equal; clear; induction before as [|b before IH]; simpl in *;
      first [ reflexivity | exact IH | f_equal; exact IH ]. }
  assert (Hst' : st' = Gallery.deletePhoto (Z.of_nat (List.length before)) st).
  { unfold st', Gallery.step, Gallery.renderGallery. rewrite Hopen, Hs. reflexivity. }
  rewrite Hst'. unfold Gallery.deletePhoto. rewrite Hsplice, Hs.
  destruct (Z.of_nat (List.length (before ++ after)) =? 0) eqn:He.
  - apply Z.eqb_eq in He. rewrite length_app in He.
    destruct before; [|simpl in He; lia]. destruct after; [|simpl in He; lia].
    split; reflexivity.
  - apply Z.eqb_neq in He. split; [reflexivity|].
    unfold Gallery.renderGallery. simpl. rewrite Hopen. simpl.
    unfold Gallery.at_index.
    destruct after as [|next after].
    + rewrite app_nil_r in *.
      replace (Z.min (Z.of_nat (List.length before)) (Z.of_nat (List.length before) - 1))
        with (Z.of_nat (List.length before) - 1) by lia.
      destruct (rev before) as [|previous rest] eqn:Hrev.
      * apply (f_equal (@rev string)) in Hrev. rewrite rev_involutive in Hrev.
        subst before. simpl in He. lia.
      * apply (f_equal (@rev string)) in Hrev. rewrite rev_involutive in Hrev.
        simpl in Hrev. subst before. rewrite length_app. simpl.
        destruct (Z.of_nat (List.length (rev rest) + 1) - 1 <? 0) eqn:Hneg;
          [apply Z.ltb_lt in Hneg; lia|].
        replace (Z.to_nat (Z.of_nat (List.length (rev rest) + 1) - 1))
          with (List.length (rev rest)) by lia.
        rewrite nth_error_app2 by lia. rewrite Nat.sub_diag. reflexivity.
    + rewrite length_app. simpl.
      replace (Z.min (Z.of_nat (List.length before))
                 (Z.of_nat (List.length before + S (List.length after)) - 1))
        with (Z.of_nat (List.length before)) by lia.
      destruct (Z.of_nat (List.length before) <? 0) eqn:Hneg;
        [apply Z.ltb_lt in Hneg; lia|].
      rewrite Nat2Z.id, nth_error_app2 by lia. rewrite Nat.sub_diag. reflexivity.
Qed.

Lemma delete_shows_neighbour_witness :
  let st := {| Gallery.gallery := ["a"; "b"; "c"]%string;
               Gallery.isGalleryOpen := true;
               Gallery.selectedImageIndex := Some 2 |} in
  Gallery.gallery (Gallery.step st Gallery.deleteSelected) = ["a"; "b"]%string
  /\ Gallery.renderGallery (Gallery.step st Gallery.deleteSelected)
     = Gallery.review (Some "b"%string).
Proof.
  intros st.
  exact (delete_shows_neighbour st ["a"; "b"]%string [] "c"%string
           eq_refl eq_refl eq_refl).
Defined.

(** ** Taking a photo *)




Lemma app_cons_eq_nil (A : Type) (l1 l2 : list A) (x : A) : l1 ++ x :: l2 <> [].
Proof. destruct l1; discriminate. Qed.

(** X13. The torch is requested only for the back camera with the flash
    enabled; the photo is then drawn with the torch lit when the device
    has one; and a capture that starts with the torch off ends with it
    off, unless the request to switch it off is rejected. *)
Theorem torch_lit_for_the_photo_only (cam : Capture.Camera)
    (before after : list Capture.Effect) (photo : Frame) :
  Capture.capturePhoto cam = before ++ Capture.setGallery_append photo :: after ->
  Capture.torchAfter false before
  = Capture.flashEnabled cam
    && match Capture.facingMode cam with environment => true | user => false end
    && Capture.torchOn cam
  /\ Capture.torchAfter false (Capture.capturePhoto cam)
     = Capture.torchAfter false before && negb (Capture.torchOff cam).
Proof.
  unfold Capture.capturePhoto.
  destruct (Capture.videoRef cam) as [[w h]|];
    [|intros H; symmetry in H; destruct (app_cons_eq_nil _ _ _ _ H)].
  destruct (Capture.canvasRef cam), (Capture.stream cam); simpl;
    try (intros H; symmetry in H; destruct (app_cons_eq_nil _ _ _ _ H)).
  destruct (Capture.flashEnabled cam), (Capture.facingMode cam),
    (Capture.torchOn cam), (Capture.context2d cam), (Capture.torchOff cam);
    simpl; intros H;
    repeat (destruct before as [|? before]; simpl in H;
            [ try discriminate H | injection H as <- H ]);
    try discriminate H;
    try (symmetry in H; destruct (app_cons_eq_nil _ _ _ _ H));
    split; reflexivity.
Qed.

Lemma torch_lit_for_the_photo_only_witness :
  let cam := {| Capture.videoRef := Some (1280, 720);
                Capture.canvasRef := true;
                Capture.stream := true;
                Capture.flashEnabled := true;
                Capture.facingMode := environment;
                Capture.context2d := true;
                Capture.torchOn := true;
                Capture.torchOff := true |} in
  Capture.torchAfter false (Capture.capturePhoto cam) = false.
Proof.
  intros cam.
  exact (proj2 (torch_lit_for_the_photo_only cam
                  [Capture.applyTorch true true; Capture.wait 200;
                   Capture.setIsFlashing true;
                   Capture.setIsFlashingAfter 150 false]
                  [Capture.applyTorch false true] _ eq_refl)).
Defined.

(** ** Integers as numbers *)

(** The number of binary digits of [p] is the [d] with
    [2^(d-1) <= p < 2^d]. *)
Lemma digits2_pos_unique (p : positive) (d : Z) :
  2 ^ (d - 1) <= Zpos p < 2 ^ d -> Zpos (digits2_pos p) = d.
Proof.
  intros [Hlo Hhi].
  pose proof (digits2_pos_gt p) as Hgt.
  pose proof (digits2_pos_ge p) as Hge.
  set (D := Zpos (digits2_pos p)) in *.
  assert (HD : 0 < D) by (unfold D; lia).
  assert (Hd : 0 < d).
  { destruct (Z.ltb_spec 0 d) as [H|H]; [exact H|].
    destruct d as [|q|q]; try lia; simpl in Hhi; lia. }
  assert (H1 : 2 ^ (d - 1) < 2 ^ D) by lia.
  apply Z.pow_lt_mono_r_iff in H1; [|lia|lia].
  assert (H2 : 2 ^ D < 2 ^ (d + 1)).
  { rewrite Z.pow_add_r by lia. change (2 ^ 1) with 2. lia. }
  apply Z.pow_lt_mono_r_iff in H2; [|lia|lia].
  lia.
Qed.

(** Shifting out zeros loses nothing. *)
Lemma shr_1_exact (c : Z) :
  0 <= c ->
  shr_1 {| shr_m := c * 2; shr_r := false; shr_s := false |}
  = {| shr_m := c; shr_r := false; shr_s := false |}.
Proof.
  intros Hc. destruct c as [|p|p]; [reflexivity| |lia].
  rewrite Z.mul_comm. reflexivity.
Qed.

Lemma iter_shr_1_exact (n : positive) (c : Z) :
  0 <= c ->
  iter_pos shr_1 n {| shr_m := c * 2 ^ Zpos n; shr_r := false; shr_s := false |}
  = {| shr_m := c; shr_r := false; shr_s := false |}.
Proof.
  revert c. induction n as [n IH|n IH|]; intros c Hc; cbn [iter_pos].
  - assert (Hp : 0 <= 2 ^ Zpos n) by (apply Z.pow_nonneg; lia).
    replace (c * 2 ^ Zpos n~1) with ((c * 2 ^ Zpos n * 2 ^ Zpos n) * 2).
    + rewrite shr_1_exact by nia.
      rewrite IH by nia. apply IH, Hc.
    + rewrite (Pos2Z.inj_xI n), Z.pow_add_r, Z.pow_mul_r by lia.
      change (2 ^ 2) with 4. change (2 ^ 1) with 2.
      rewrite <- (Z.pow_mul_r 2 2) by lia.
      replace (2 * Zpos n) with (Zpos n + Zpos n) by lia.
      rewrite Z.pow_add_r by lia. ring.
  - assert (Hp : 0 <= 2 ^ Zpos n) by (apply Z.pow_nonneg; lia).
    replace (c * 2 ^ Zpos n~0) with ((c * 2 ^ Zpos n) * 2 ^ Zpos n).
    + rewrite IH by nia. apply IH, Hc.
    + rewrite (Pos2Z.inj_xO n).
      replace (2 * Zpos n) with (Zpos n + Zpos n) by lia.
      rewrite Z.pow_add_r by lia. ring.
  - change (2 ^ 1) with 2. apply shr_1_exact, Hc.
Qed.

(** A 53-digit mantissa followed by [k] zeros rounds to itself. *)
Lemma binary_round_aux_exact (s : bool) (m : positive) (k E : Z) :
  Zpos (digits2_pos m) = 53 -> 0 <= k -> -1074 <= E + k <= 971 ->
  binary_round_aux prec emax s (Zpos m * 2 ^ k) E loc_Exact
  = S754_finite s m (E + k).
Proof.
  intros Hd Hk HE.
  pose proof (digits2_pos_gt m) as Hgt. pose proof (digits2_pos_ge m) as Hge.
  rewrite Hd in Hgt, Hge.
  assert (Hpk : 0 < 2 ^ k) by (apply Z.pow_pos_nonneg; lia).
  assert (HM : Zdigits2 (Zpos m * 2 ^ k) = 53 + k).
  { destruct (Zpos m * 2 ^ k) as [|M|M] eqn:HMk; try lia.
    cbn [Zdigits2]. apply digits2_pos_unique. rewrite <- HMk.
    replace (53 + k - 1) with (52 + k) by lia.
    rewrite !Z.pow_add_r by lia. nia. }
  assert (Hfirst : shr_fexp prec emax (Zpos m * 2 ^ k) E loc_Exact
                   = ({| shr_m := Zpos m; shr_r := false; shr_s := false |}, E + k)).
  { unfold shr_fexp. rewrite HM.
    replace (fexp prec emax (53 + k + E) - E) with k
      by (unfold fexp, emin, prec, emax; lia).
    unfold shr, shr_record_of_loc. destruct k as [|kp|kp]; [| |lia].
    - rewrite Z.mul_1_r, Z.add_0_r. reflexivity.
    - rewrite iter_shr_1_exact by lia. reflexivity. }
  unfold binary_round_aux. rewrite Hfirst. cbn [shr_m loc_of_shr_record round_nearest_even].
  unfold shr_fexp. cbn [Zdigits2]. rewrite Hd.
  replace (fexp prec emax (53 + (E + k)) - (E + k)) with 0
    by (unfold fexp, emin, prec, emax; lia).
  cbn [shr shr_record_of_loc shr_m].
  replace (E + k <=? emax - prec) with true; [reflexivity|].
  symmetry. apply Z.leb_le. unfold emax, prec. lia.
Qed.

Lemma iter_xO_pow (p d : positive) :
  Zpos (Pos.iter xO p d) = Zpos p * 2 ^ Zpos d.
Proof.
  induction d as [|d IH] using Pos.peano_ind.
  - simpl. lia.
  - rewrite Pos.iter_succ, Pos2Z.inj_xO, IH, Pos2Z.inj_succ, Z.pow_succ_r by lia. ring.
Qed.

(** An integer below [2^53] is a number, exactly. *)
Lemma of_Z_dyadic (n : Z) :
  0 <= n < 2 ^ 53 -> dyadic (of_Z n) /\ scaled (of_Z n) = n * 2 ^ 64.
Proof.
  intros [Hlo Hhi]. destruct n as [|p|p]; [split; reflexivity| |lia].
  unfold of_Z, binary_normalize, binary_round.
  pose proof (digits2_pos_le p 53 ltac:(lia) Hhi) as Hd.
  pose proof (digits2_pos_gt p) as Hgt. pose proof (digits2_pos_ge p) as Hge.
  set (d := Zpos (digits2_pos p)) in *.
  assert (Hd0 : 0 < d) by (unfold d; lia).
  replace (fexp prec emax (d + 0)) with (d - 53)
    by (unfold fexp, emin, prec, emax; lia).
  unfold shl_align.
  destruct (d - 53 - 0) as [|q|q] eqn:Hq; [| lia |].
  - assert (Hd53 : d = 53) by lia.
    pose proof (binary_round_aux_exact false p 0 0 Hd53 ltac:(lia) ltac:(lia)) as Hr.
    change (2 ^ 0) with 1 in Hr. rewrite Z.mul_1_r in Hr. rewrite Hr.
    unfold dyadic, scaled. fold d. cbn [cond_Zopp]. split; [lia|].
    reflexivity.
  - assert (Hq' : Zpos q = 53 - d) by lia.
    pose proof (iter_xO_pow p q) as Hit.
    assert (Hpq : 0 < 2 ^ Zpos q) by (apply Z.pow_pos_nonneg; lia).
    assert (Hdig : Zpos (digits2_pos (Pos.iter xO p q)) = 53).
    { apply digits2_pos_unique. rewrite Hit.
      assert (E1 : 2 ^ (53 - 1) = 2 ^ (d - 1) * 2 ^ Zpos q).
      { rewrite <- Z.pow_add_r by lia. f_equal. lia. }
      assert (E2 : 2 ^ 53 = 2 ^ d * 2 ^ Zpos q).
      { rewrite <- Z.pow_add_r by lia. f_equal. lia. }
      rewrite E1, E2.
      assert (H2 : 2 ^ d = 2 * 2 ^ (d - 1)).
      { rewrite <- Z.pow_succ_r by lia. f_equal. lia. }
      split.
      - apply Z.mul_le_mono_nonneg_r; lia.
      - apply Z.mul_lt_mono_pos_r; lia. }
    pose proof (binary_round_aux_exact false (Pos.iter xO p q) 0 (d - 53) Hdig
                  ltac:(lia) ltac:(lia)) as Hr.
    change (2 ^ 0) with 1 in Hr. rewrite Z.mul_1_r, Z.add_0_r in Hr. rewrite Hr.
    unfold dyadic, scaled. cbn [cond_Zopp]. split; [lia|].
    rewrite Hit, <- Z.mul_assoc, <- Z.pow_add_r by lia.
    do 2 f_equal. lia.
Qed.

(** Comparing such numbers compares their values. *)
Lemma compare_dyadic (x y : number) :
  dyadic x -> dyadic y -> SFcompare x y = Some (scaled x ?= scaled y).
Proof.
  destruct x as [[|]| | |[|] m1 e1]; try contradiction;
    destruct y as [[|]| | |[|] m2 e2]; try contradiction; intros Hx Hy;
    cbn [SFcompare scaled cond_Zopp dyadic] in *.
  - reflexivity.
  - destruct Hy as [_ Hy].
    assert (0 < 2 ^ (e2 + 64)) by (apply Z.pow_pos_nonneg; lia).
    f_equal. symmetry. apply Z.compare_lt_iff. nia.
  - destruct Hx as [_ Hx].
    assert (0 < 2 ^ (e1 + 64)) by (apply Z.pow_pos_nonneg; lia).
    f_equal. symmetry. apply Z.compare_gt_iff. nia.
  - destruct Hx as [Hd1 Hx], Hy as [Hd2 Hy]. f_equal.
    pose proof (digits2_pos_gt m1) as Hgt1. pose proof (digits2_pos_ge m1) as Hge1.
    pose proof (digits2_pos_gt m2) as Hgt2. pose proof (digits2_pos_ge m2) as Hge2.
    rewrite Hd1 in Hgt1, Hge1. rewrite Hd2 in Hgt2, Hge2.
    change (2 ^ 53) with (2 * 2 ^ 52) in Hgt1, Hge1, Hgt2, Hge2.
    assert (Hp1 : 0 < 2 ^ (e1 + 64)) by (apply Z.pow_pos_nonneg; lia).
    assert (Hp2 : 0 < 2 ^ (e2 + 64)) by (apply Z.pow_pos_nonneg; lia).
    generalize dependent (2 ^ 52). intros K Hgt1 Hge1 Hgt2 Hge2.
    destruct (Z.compare_spec e1 e2) as [He|He|He].
    + subst e2. rewrite Pos.compare_cont_spec. cbn [Pos.switch_Eq].
      rewrite Pos2Z.inj_compare.
      destruct (Z.compare_spec (Zpos m1) (Zpos m2)) as [Hm|Hm|Hm]; symmetry.
      * apply Z.compare_eq_iff. congruence.
      * apply Z.compare_lt_iff. nia.
      * apply Z.compare_gt_iff. nia.
    + symmetry. apply Z.compare_lt_iff.
      assert (Hpow : 2 * 2 ^ (e1 + 64) <= 2 ^ (e2 + 64)).
      { rewrite <- Z.pow_succ_r by lia. apply Z.pow_le_mono_r; lia. }
      nia.
    + symmetry. apply Z.compare_gt_iff.
      assert (Hpow : 2 * 2 ^ (e2 + 64) <= 2 ^ (e1 + 64)).
      { rewrite <- Z.pow_succ_r by lia. apply Z.pow_le_mono_r; lia. }
      nia.
Qed.

(** Halving a normal number lowers its exponent, by [* 0.5] and by [/ 2]
    alike. *)
Lemma mul_half_finite (m : positive) (e : Z) :
  Zpos (digits2_pos m) = 53 -> -1073 <= e <= 972 ->
  mul (S754_finite false m e) lit_0_5 = S754_finite false m (e - 1).
Proof.
  intros Hd He. unfold mul, lit_0_5. cbn [SFmul xorb].
  rewrite Pos2Z.inj_mul. change (Zpos 4503599627370496) with (2 ^ 52).
  rewrite binary_round_aux_exact by lia. f_equal. lia.
Qed.

Lemma div_two_finite (m : positive) (e : Z) :
  Zpos (digits2_pos m) = 53 -> -1072 <= e <= 972 ->
  div (S754_finite false m e) (of_Z 2) = S754_finite false m (e - 1).
Proof.
  intros Hd He.
  change (of_Z 2) with (S754_finite false 4503599627370496 (-51)).
  assert (Hcore : SFdiv_core_binary prec emax (Zpos m) e (Zpos 4503599627370496) (-51)
                  = (Zpos m * 2 ^ 1, e - 2, loc_Exact)).
  { unfold SFdiv_core_binary. cbn [Zdigits2]. rewrite Hd.
    change (Zpos (digits2_pos 4503599627370496)) with 53. cbv zeta.
    replace (Z.min (fexp prec emax (53 + e - (53 + -51))) (e - -51)) with (e - 2)
      by (unfold fexp, emin, prec, emax; lia).
    replace (e - -51 - (e - 2)) with 53 by lia.
    rewrite Z.shiftl_mul_pow2 by lia.
    change (2 ^ 53) with (2 * Zpos 4503599627370496). rewrite Z.mul_assoc.
    pose proof (Z.div_mul (Zpos m * 2) (Zpos 4503599627370496) ltac:(lia)) as Hq.
    pose proof (Z.mod_mul (Zpos m * 2) (Zpos 4503599627370496) ltac:(lia)) as Hr.
    unfold Z.div, Z.modulo in Hq, Hr.
    destruct (Z.div_eucl (Zpos m * 2 * Zpos 4503599627370496) (Zpos 4503599627370496))
      as [q r].
    subst q r. reflexivity. }
  unfold div. cbn [SFdiv xorb]. rewrite Hcore.
  rewrite binary_round_aux_exact by lia. f_equal. lia.
Qed.

(** The exponent of a positive integer below [2^53]. *)
Lemma of_Z_finite (n : Z) :
  0 < n < 2 ^ 53 ->
  exists m e, of_Z n = S754_finite false m e
              /\ Zpos (digits2_pos m) = 53 /\ -52 <= e <= 0
              /\ Zpos m * 2 ^ (e + 64) = n * 2 ^ 64.
Proof.
  intros Hn. destruct (of_Z_dyadic n ltac:(lia)) as [Hdy Hsc].
  destruct (of_Z n) as [[|]| | |[|] m e]; try contradiction;
    cbn [scaled cond_Zopp] in Hsc.
  - assert (0 < 2 ^ 64) by reflexivity. nia.
  - destruct Hdy as [Hd He]. exists m, e. repeat split; try assumption.
    + destruct (Z.le_gt_cases (-52) e) as [H|H]; [exact H|exfalso].
      pose proof (digits2_pos_gt m) as Hgt. rewrite Hd in Hgt.
      assert (Hpow : 2 ^ (e + 64) <= 2 ^ 11) by (apply Z.pow_le_mono_r; lia).
      assert (Hp : 0 < 2 ^ (e + 64)) by (apply Z.pow_pos_nonneg; lia).
      assert (Hlt : Zpos m * 2 ^ (e + 64) < 2 ^ 53 * 2 ^ 11) by nia.
      rewrite Hsc in Hlt. change (2 ^ 53 * 2 ^ 11) with (1 * 2 ^ 64) in Hlt.
      apply Z.mul_lt_mono_pos_r in Hlt; [lia | reflexivity].
    + destruct (Z.le_gt_cases e 0) as [H|H]; [exact H|exfalso].
      pose proof (digits2_pos_ge m) as Hge. rewrite Hd in Hge.
      assert (Hpow : 2 ^ 65 <= 2 ^ (e + 64)) by (apply Z.pow_le_mono_r; lia).
      change (2 ^ 53) with (2 * 2 ^ 52) in Hge.
      assert (Hle : 2 ^ 52 * 2 ^ 65 <= Zpos m * 2 ^ (e + 64)) by nia.
      rewrite Hsc in Hle. change (2 ^ 52 * 2 ^ 65) with (2 ^ 53 * 2 ^ 64) in Hle.
      apply Z.mul_le_mono_pos_r in Hle; [lia | reflexivity].
Qed.

Lemma truncate_scaled (x : number) :
  dyadic x -> truncate x = scaled x / 2 ^ 64.
Proof.
  destruct x as [[|]| | |[|] m e]; try contradiction; intros Hx;
    cbn [truncate scaled cond_Zopp]; [reflexivity|].
  destruct Hx as [_ He].
  destruct (Z.leb_spec 0 e) as [H|H].
  - rewrite Z.pow_add_r, Z.mul_assoc, Z.div_mul by lia. reflexivity.
  - replace 64 with (- e + (e + 64)) at 2 by lia.
    rewrite (Z.pow_add_r 2 (- e)) by lia.
    rewrite Z.div_mul_cancel_r; [reflexivity | |];
      apply Z.pow_nonzero; lia.
Qed.

(** Half of an integer, computed as [n * 0.5] and as [n / 2]. *)
Lemma mul_half_dyadic (n : Z) :
  0 <= n < 2 ^ 53 ->
  dyadic (mul (of_Z n) lit_0_5)
  /\ 2 * scaled (mul (of_Z n) lit_0_5) = n * 2 ^ 64.
Proof.
  intros Hn. destruct (Z.eq_dec n 0) as [->|Hn0]; [split; reflexivity|].
  destruct (of_Z_finite n ltac:(lia)) as (m & e & -> & Hd & He & Hv).
  rewrite mul_half_finite by lia. cbn [dyadic scaled cond_Zopp].
  split; [lia|]. rewrite <- Hv.
  replace (e + 64) with (Z.succ (e - 1 + 64)) by lia.
  rewrite Z.pow_succ_r by lia. ring.
Qed.

Lemma div_two_dyadic (n : Z) :
  0 <= n < 2 ^ 53 ->
  dyadic (div (of_Z n) (of_Z 2))
  /\ 2 * scaled (div (of_Z n) (of_Z 2)) = n * 2 ^ 64.
Proof.
  intros Hn. destruct (Z.eq_dec n 0) as [->|Hn0]; [split; reflexivity|].
  destruct (of_Z_finite n ltac:(lia)) as (m & e & -> & Hd & He & Hv).
  rewrite div_two_finite by lia. cbn [dyadic scaled cond_Zopp].
  split; [lia|]. rewrite <- Hv.
  replace (e + 64) with (Z.succ (e - 1 + 64)) by lia.
  rewrite Z.pow_succ_r by lia. ring.
Qed.

Lemma mul_two_dyadic (n : Z) :
  0 <= n < 2 ^ 53 ->
  dyadic (mul (of_Z n) (of_Z 2))
  /\ scaled (mul (of_Z n) (of_Z 2)) = 2 * n * 2 ^ 64.
Proof.
  intros Hn. destruct (Z.eq_dec n 0) as [->|Hn0]; [split; reflexivity|].
  destruct (of_Z_finite n ltac:(lia)) as (m & e & -> & Hd & He & Hv).
  change (of_Z 2) with (S754_finite false 4503599627370496 (-51)).
  unfold mul. cbn [SFmul xorb].
  rewrite Pos2Z.inj_mul. change (Zpos 4503599627370496) with (2 ^ 52).
  rewrite binary_round_aux_exact by lia. cbn [dyadic scaled cond_Zopp].
  split; [lia|].
  replace (e + -51 + 52 + 64) with (Z.succ (e + 64)) by lia.
  rewrite Z.pow_succ_r by lia. rewrite <- Z.mul_assoc, <- Hv. ring.
Qed.

(** [canvas.width = video.videoWidth * 0.5]. *)
Lemma half_size (w : Z) :
  0 <= w < 2 ^ 32 -> ToUint32 (mul (of_Z w) lit_0_5) = w / 2.
Proof.
  intros Hw. assert (Hw' : 0 <= w < 2 ^ 53) by (change (2 ^ 32) with 4294967296 in Hw; change (2 ^ 53) with 9007199254740992; lia).
  destruct (mul_half_dyadic w Hw') as [Hdy Hsc].
  unfold ToUint32. rewrite truncate_scaled by exact Hdy.
  assert (Hs : scaled (mul (of_Z w) lit_0_5) = w * 2 ^ 63).
  { change (2 ^ 64) with (2 * 2 ^ 63) in Hsc. lia. }
  rewrite Hs. change (2 ^ 64) with (2 * 2 ^ 63).
  rewrite Z.div_mul_cancel_r by lia.
  apply Z.mod_small. change (2 ^ 32) with 4294967296 in Hw.
  Z.div_mod_to_equations. lia.
Qed.

(** [i < n / 2] and [i * 2] for integers. *)
Lemma index_below_half (i n : Z) :
  0 <= i < 2 ^ 53 -> 0 <= n < 2 ^ 53 ->
  ltb (of_Z i) (div (of_Z n) (of_Z 2)) = (2 * i <? n).
Proof.
  intros Hi Hn.
  destruct (of_Z_dyadic i Hi) as [Hdi Hsi].
  destruct (div_two_dyadic n Hn) as [Hdn Hsn].
  unfold ltb, SFltb. rewrite (compare_dyadic _ _ Hdi Hdn), Hsi.
  assert (Hp : 0 < 2 ^ 64) by reflexivity.
  destruct (Z.ltb_spec (2 * i) n) as [H|H];
    destruct (Z.compare_spec (i * 2 ^ 64) (scaled (div (of_Z n) (of_Z 2))));
    try reflexivity; exfalso; nia.
Qed.

Lemma index_times_two (i : Z) :
  0 <= i < 2 ^ 53 -> truncate (mul (of_Z i) (of_Z 2)) = 2 * i.
Proof.
  intros Hi. destruct (mul_two_dyadic i Hi) as [Hd Hs].
  rewrite truncate_scaled, Hs by exact Hd. apply Z.div_mul. discriminate.
Qed.

(** ** The voice of the coach *)

Lemma store_length (i : nat) (v : number) (l : list number) :
  List.length (Playback.store i v l) = List.length l.
Proof.
  revert i. induction l as [|a l IH]; intros [|i]; simpl; congruence.
Qed.

Lemma store_nth (i j : nat) (v : number) (l : list number) :
  (i < List.length l)%nat ->
  nth j (Playback.store i v l) zero = if Nat.eqb j i then v else nth j l zero.
Proof.
  revert i j. induction l as [|a l IH]; intros [|i] [|j] Hi; simpl in *;
    try lia; try reflexivity.
  apply IH. lia.
Qed.

Lemma getInt16_range (view : list Z) (byteOffset int16 : Z) :
  Forall is_byte view ->
  Playback.getInt16 view byteOffset = Some int16 ->
  -32768 <= int16 <= 32767.
Proof.
  intros Hb. unfold Playback.getInt16.
  destruct ((byteOffset <? 0) || (Z.of_nat (List.length view) <? byteOffset + 2));
    [discriminate|].
  assert (Hnth : forall k, is_byte (nth k view 0)).
  { intros k. destruct (nth_in_or_default k view 0) as [Hin| ->].
    - rewrite Forall_forall in Hb. apply Hb, Hin.
    - unfold is_byte. lia. }
  pose proof (Hnth (Z.to_nat byteOffset)) as Hlo.
  pose proof (Hnth (Z.to_nat byteOffset + 1)%nat) as Hhi.
  unfold is_byte in Hlo, Hhi. cbv zeta.
  generalize dependent (nth (Z.to_nat byteOffset) view 0).
  generalize dependent (nth (Z.to_nat byteOffset + 1) view 0).
  intros hi Hhi lo Hlo.
  destruct (32768 <=? lo + 256 * hi) eqn:Hc;
    [apply Z.leb_le in Hc | apply Z.leb_gt in Hc];
    intros H; apply (f_equal (fun o => match o with Some v => v | None => 0 end)) in H;
    cbv beta iota in H; subst int16; lia.
Qed.

(** A 16-bit sample divided by 32768 is a binary32 number in [[-1, 1)]. *)
Lemma sample_exact (int16 : Z) :
  -32768 <= int16 <= 32767 ->
  let s := div (of_Z int16) (of_Z 32768) in
  Playback.fround s = s
  /\ leb (of_Z (-1)) s = true /\ ltb s (of_Z 1) = true.
Proof.
  intros Hr.
  set (u := int16 + 32768).
  assert (Hhi : 0 <= u / 256 <= 255) by (unfold u; Z.div_mod_to_equations; lia).
  assert (Hlo : 0 <= u mod 256 <= 255) by (Z.div_mod_to_equations; lia).
  assert (Hu : u mod 256 + 256 * (u / 256) - 32768 = int16)
    by (unfold u; Z.div_mod_to_equations; lia).
  clearbody u. clear Hr.
  assert (Hall : forall_upto 255 (fun hi => forall_upto 255 (fun lo =>
            let s := div (of_Z (lo + 256 * hi - 32768)) (of_Z 32768) in
            same (Playback.fround s) s && leb (of_Z (-1)) s && ltb s (of_Z 1))) = true)
    by (vm_compute; reflexivity).
  pose proof (forall_upto_spec 255 _ Hall (u / 256) Hhi) as Hrow.
  cbv beta in Hrow.
  pose proof (forall_upto_spec 255 _ Hrow (u mod 256) Hlo) as H.
  cbv zeta beta in H. rewrite Hu in H.
  apply andb_true_iff in H. destruct H as [H H3].
  apply andb_true_iff in H. destruct H as [H1 H2].
  cbv zeta. repeat split; [apply same_eq, H1 | exact H2 | exact H3].
Qed.

Lemma half_length (n : Z) :
  0 <= n < 2 ^ 53 -> truncate (div (of_Z n) (of_Z 2)) = n / 2.
Proof.
  intros Hn. destruct (div_two_dyadic n Hn) as [Hd Hs].
  rewrite truncate_scaled by exact Hd.
  assert (Hs' : scaled (div (of_Z n) (of_Z 2)) = n * 2 ^ 63).
  { change (2 ^ 64) with (2 * 2 ^ 63) in Hs. lia. }
  rewrite Hs'. change (2 ^ 64) with (2 * 2 ^ 63).
  apply Z.div_mul_cancel_r; lia.
Qed.

(** One turn of the loop, with its tests read as integer comparisons. *)
Lemma decodeLoop_step (fuel : nat) (view : list Z) (i : nat) (data : list number) :
  Z.of_nat (List.length view) < 2 ^ 53 ->
  (2 * i <= List.length view)%nat ->
  Playback.decodeLoop (S fuel) view
    (div (of_Z (Z.of_nat (List.length view))) (of_Z 2)) (Z.of_nat i) data
  = if (2 * i <? List.length view)%nat then
      match Playback.getInt16 view (2 * Z.of_nat i) with
      | None => Some (Playback.throw Playback.RangeError)
      | Some int16 =>
          Playback.decodeLoop fuel view
            (div (of_Z (Z.of_nat (List.length view))) (of_Z 2)) (Z.of_nat (S i))
            (Playback.store i (Playback.fround (div (of_Z int16) (of_Z 32768))) data)
      end
    else Some (Playback.normal data).
Proof.
  intros Hn Hi. cbn [Playback.decodeLoop].
  rewrite index_below_half by lia.
  rewrite index_times_two by lia.
  rewrite Nat2Z.id.
  replace (Z.of_nat i + 1) with (Z.of_nat (S i)) by lia.
  destruct (Nat.ltb_spec (2 * i) (List.length view)) as [H|H];
    destruct (Z.ltb_spec (2 * Z.of_nat i) (Z.of_nat (List.length view))) as [H'|H'];
    try reflexivity; lia.
Qed.

Lemma getInt16_inside (view : list Z) (j : nat) :
  (2 * j + 2 <= List.length view)%nat ->
  exists int16, Playback.getInt16 view (2 * Z.of_nat j) = Some int16.
Proof.
  intros Hj. unfold Playback.getInt16.
  destruct (2 * Z.of_nat j <? 0) eqn:H0; [apply Z.ltb_lt in H0; lia|].
  destruct (Z.of_nat (List.length view) <? 2 * Z.of_nat j + 2) eqn:H1;
    [apply Z.ltb_lt in H1; lia|].
  simpl. eexists. reflexivity.
Qed.

Lemma getInt16_outside (view : list Z) (j : nat) :
  (List.length view < 2 * j + 2)%nat ->
  Playback.getInt16 view (2 * Z.of_nat j) = None.
Proof.
  intros Hj. unfold Playback.getInt16.
  destruct (Z.of_nat (List.length view) <? 2 * Z.of_nat j + 2) eqn:H1;
    [rewrite orb_true_r; reflexivity|apply Z.ltb_ge in H1; lia].
Qed.

Lemma decodeLoop_even (view : list Z) (k : nat) :
  Forall is_byte view -> List.length view = (2 * k)%nat ->
  Z.of_nat (List.length view) < 2 ^ 53 ->
  forall (d i fuel : nat) (data : list number),
    (i + d = k)%nat -> (d < fuel)%nat -> List.length data = k ->
    (forall j, (j < i)%nat -> nth j data zero = Playback.sampleAt view j) ->
    exists samples,
      Playback.decodeLoop fuel view
        (div (of_Z (Z.of_nat (List.length view))) (of_Z 2)) (Z.of_nat i) data
      = Some (Playback.normal samples)
      /\ List.length samples = k
      /\ forall j, (j < k)%nat -> nth j samples zero = Playback.sampleAt view j.
Proof.
  intros Hb Hlen Hn. induction d as [|d IH]; intros i fuel data Hid Hf Hdata Hinv.
  - destruct fuel as [|fuel]; [lia|].
    rewrite decodeLoop_step by lia.
    destruct (Nat.ltb_spec (2 * i) (List.length view)) as [H|H]; [lia|].
    exists data. repeat split; [exact Hdata|].
    intros j Hj. apply Hinv. lia.
  - destruct fuel as [|fuel]; [lia|].
    rewrite decodeLoop_step by lia.
    destruct (Nat.ltb_spec (2 * i) (List.length view)) as [H|H]; [|lia].
    destruct (getInt16_inside view i ltac:(lia)) as [int16 Hget].
    rewrite Hget.
    pose proof (getInt16_range _ _ _ Hb Hget) as Hr.
    destruct (sample_exact int16 Hr) as [Hfround _].
    cbv zeta in Hfround. rewrite Hfround.
    apply IH; [lia | lia | rewrite store_length; exact Hdata |].
    intros j Hj. rewrite store_nth by lia.
    destruct (Nat.eqb_spec j i) as [->|Hne].
    + unfold Playback.sampleAt. rewrite Hget. reflexivity.
    + apply Hinv. lia.
Qed.

Lemma decodeLoop_odd (view : list Z) (k : nat) :
  List.length view = (2 * k + 1)%nat ->
  Z.of_nat (List.length view) < 2 ^ 53 ->
  forall (d i fuel : nat) (data : list number),
    (i + d = k)%nat -> (d < fuel)%nat ->
    Playback.decodeLoop fuel view
      (div (of_Z (Z.of_nat (List.length view))) (of_Z 2)) (Z.of_nat i) data
    = Some (Playback.throw Playback.RangeError).
Proof.
  intros Hlen Hn. induction d as [|d IH]; intros i fuel data Hid Hf.
  - destruct fuel as [|fuel]; [lia|].
    rewrite decodeLoop_step by lia.
    destruct (Nat.ltb_spec (2 * i) (List.length view)) as [H|H]; [|lia].
    rewrite getInt16_outside by lia. reflexivity.
  - destruct fuel as [|fuel]; [lia|].
    rewrite decodeLoop_step by lia.
    destruct (Nat.ltb_spec (2 * i) (List.length view)) as [H|H]; [|lia].
    destruct (getInt16_inside view i ltac:(lia)) as [int16 Hget].
    rewrite Hget. apply IH; lia.
Qed.

Lemma decode_even (view : list Z) (k fuel : nat) :
  Forall is_byte view ->
  List.length view = (2 * k)%nat ->
  Z.of_nat (List.length view) < 2 ^ 53 ->
  (k < fuel)%nat ->
  Playback.decode fuel view
  = Some (Playback.normal (map (Playback.sampleAt view) (seq 0 k))).
Proof.
  intros Hb Hlen Hn Hf.
  unfold Playback.decode. cbv zeta.
  assert (Hk : Z.to_nat (truncate (div (of_Z (Z.of_nat (List.length view))) (of_Z 2))) = k).
  { rewrite half_length by lia. rewrite Hlen.
    replace (Z.of_nat (2 * k)) with (Z.of_nat k * 2) by lia.
    rewrite Z.div_mul by lia. apply Nat2Z.id. }
  rewrite Hk.
  destruct (decodeLoop_even view k Hb Hlen Hn k 0%nat fuel (repeat zero k))
    as (samples & Hrun & Hlen' & Hnth);
    [lia | exact Hf | apply repeat_length | intros j Hj; lia |].
  change (Z.of_nat 0) with 0 in Hrun. rewrite Hrun. do 2 f_equal.
  apply (nth_ext _ _ zero zero).
  - rewrite length_map, length_seq. exact Hlen'.
  - intros j Hj. rewrite Hlen' in Hj. rewrite Hnth by exact Hj.
    rewrite (nth_indep _ zero (Playback.sampleAt view 0%nat))
      by (rewrite length_map, length_seq; exact Hj).
    rewrite (map_nth (Playback.sampleAt view)), seq_nth by exact Hj.
    reflexivity.
Qed.

(** X14. A chunk of an even number of bytes decodes, in at most one turn
    of the loop per sample plus one, to one sample per pair of bytes: the
    little-endian 16-bit integer divided by 32768, stored in the
    [Float32Array] without rounding, and within [[-1, 1)]. *)
Theorem audio_chunk_decoded (view : list Z) (k fuel : nat) :
  Forall is_byte view ->
  List.length view = (2 * k)%nat ->
  Z.of_nat (List.length view) < 2 ^ 53 ->
  (k < fuel)%nat ->
  Playback.decode fuel view
  = Some (Playback.normal (map (Playback.sampleAt view) (seq 0 k)))
  /\ Forall (fun s => leb (of_Z (-1)) s = true /\ ltb s (of_Z 1) = true)
       (map (Playback.sampleAt view) (seq 0 k)).
Proof.
  intros Hb Hlen Hn Hf. split; [apply decode_even; assumption|].
  apply Forall_forall. intros s Hs. apply in_map_iff in Hs.
  destruct Hs as (j & <- & Hj). apply in_seq in Hj.
  destruct (getInt16_inside view j ltac:(lia)) as [int16 Hget].
  unfold Playback.sampleAt. rewrite Hget.
  pose proof (getInt16_range _ _ _ Hb Hget) as Hr.
  destruct (sample_exact int16 Hr) as (_ & H1 & H2). split; assumption.
Qed.

Lemma play_witness_bytes : Forall is_byte [0; 128; 255; 127].
Proof. repeat constructor; unfold is_byte; lia. Qed.

Lemma audio_chunk_decoded_witness :
  Playback.decode 3 [0; 128; 255; 127]
  = Some (Playback.normal (map (Playback.sampleAt [0; 128; 255; 127]) (seq 0 2)))
  /\ Forall (fun s => leb (of_Z (-1)) s = true /\ ltb s (of_Z 1) = true)
       (map (Playback.sampleAt [0; 128; 255; 127]) (seq 0 2)).
Proof.
  apply (audio_chunk_decoded [0; 128; 255; 127] 2 3 play_witness_bytes eq_refl);
    [reflexivity | lia].
Defined.

(** The bytes of a binary string are bytes. *)
Lemma base64ToArrayBuffer_bytes {host : Playback.Base64Host} (base64 : string)
    (view : list Z) :
  Playback.base64ToArrayBuffer base64 = Playback.normal view ->
  Forall is_byte view.
Proof.
  unfold Playback.base64ToArrayBuffer.
  destruct (Playback.atob base64) as [binaryString|error]; [|discriminate].
  intros H. injection H as <-. apply Forall_forall. intros z Hz.
  apply in_map_iff in Hz. destruct Hz as (c & <- & _).
  pose proof (N_ascii_bounded c) as Hc. unfold is_byte. lia.
Qed.

(** What the loop makes of a view: its samples, or the [RangeError] of the
    read at the odd byte that ends it. *)
Lemma decode_outcome (view : list Z) (fuel : nat) :
  Forall is_byte view ->
  Z.of_nat (List.length view) < 2 ^ 53 ->
  (Nat.div2 (List.length view) < fuel)%nat ->
  Playback.decode fuel view
  = Some (if Nat.even (List.length view)
          then Playback.normal (map (Playback.sampleAt view)
                                  (seq 0 (Nat.div2 (List.length view))))
          else Playback.throw Playback.RangeError).
Proof.
  intros Hb Hn Hf.
  destruct (Nat.even (List.length view)) eqn:Hev.
  - apply Nat.even_spec in Hev. destruct Hev as [k Hk].
    assert (Hd : Nat.div2 (List.length view) = k).
    { rewrite Hk. apply Nat.div2_double. }
    rewrite Hd in *. apply decode_even; assumption.
  - assert (Hodd : Nat.odd (List.length view) = true)
      by (rewrite <- Nat.negb_even, Hev; reflexivity).
    apply Nat.odd_spec in Hodd. destruct Hodd as [k Hk].
    assert (Hd : Nat.div2 (List.length view) = k).
    { rewrite Hk. replace (2 * k + 1)%nat with (S (2 * k)) by lia.
      apply Nat.div2_succ_double. }
    rewrite Hd in *.
    unfold Playback.decode. cbv zeta.
    apply (decodeLoop_odd view k Hk Hn k 0%nat fuel); lia.
Qed.

(** X15. What becomes of the audio of a message. Without audio data (none,
    or the empty string) or without output context the block is skipped:
    nothing is played, nothing is raised and [nextAudioStartTimeRef] keeps
    its value. Otherwise a text that [atob] refuses raises its error; data
    of no byte is refused by [createBuffer]; data of an odd number of bytes
    is dropped whole by the [RangeError] of its last read; and any other is
    played, all its samples, at the later of now and the end of the chunk
    before it. *)
Theorem chunk_plays_or_is_dropped {host : Playback.Base64Host} (fuel : nat)
    (audioData : option string) (audioContextRef : option number)
    (nextAudioStartTimeRef : number) :
  (forall data view,
     audioData = Some data ->
     Playback.base64ToArrayBuffer data = Playback.normal view ->
     Z.of_nat (List.length view) < 2 ^ 53
     /\ (Nat.div2 (List.length view) < fuel)%nat) ->
  Playback.playChunk fuel audioData audioContextRef nextAudioStartTimeRef
  = Some (match audioData, audioContextRef with
          | Some (String c rest), Some currentTime =>
              match Playback.base64ToArrayBuffer (String c rest) with
              | Playback.throw error => Playback.throw error
              | Playback.normal view =>
                  match List.length view with
                  | O => Playback.throw Playback.NotSupportedError
                  | S _ =>
                      if Nat.even (List.length view) then
                        let channel := map (Playback.sampleAt view)
                                         (seq 0 (Nat.div2 (List.length view))) in
                        let startTime :=
                          Math_max currentTime nextAudioStartTimeRef in
                        Playback.normal
                          (Some {| Playback.channelData := channel;
                                   Playback.startTime := startTime |},
                           add startTime (Playback.duration channel))
                      else Playback.throw Playback.RangeError
                  end
              end
          | _, _ => Playback.normal (None, nextAudioStartTimeRef)
          end).
Proof.
  intros Hsize. unfold Playback.playChunk.
  destruct audioData as [[|c rest]|]; try reflexivity.
  destruct audioContextRef as [currentTime|]; [|reflexivity].
  destruct (Playback.base64ToArrayBuffer (String c rest)) as [view|error] eqn:Hview;
    [|reflexivity].
  destruct (Hsize _ view eq_refl Hview) as [Hn Hf].
  rewrite (decode_outcome view fuel (base64ToArrayBuffer_bytes _ _ Hview) Hn Hf).
  destruct (Nat.even (List.length view)) eqn:Hev.
  - destruct view as [|b0 [|b1 view]]; [reflexivity | discriminate Hev |].
    reflexivity.
  - destruct view as [|b0 view]; [discriminate Hev | reflexivity].
Qed.

Lemma chunk_plays_or_is_dropped_witness :
  Playback.playChunk (host := RefBase64.host) 2 (Some "AID/"%string)
    (Some (of_Z 1)) (of_Z 0)
  = Some (Playback.throw Playback.RangeError).
Proof.
  apply (chunk_plays_or_is_dropped (host := RefBase64.host) 2 (Some "AID/"%string)
           (Some (of_Z 1)) (of_Z 0)).
  intros data view Hdata. injection Hdata as <-.
  intros Hview. vm_compute in Hview. injection Hview as <-.
  split; [reflexivity | simpl; lia].
Defined.

(** Rounding a non-negative mantissa gives a number of the sign asked
    for, never NaN. *)
Lemma binary_round_aux_sign (s : bool) (m e : Z) (l : location) :
  0 <= m ->
  is_nan (binary_round_aux prec emax s m e l) = false
  /\ sign_bit (binary_round_aux prec emax s m e l) = s.
Proof.
  intros Hm. unfold binary_round_aux.
  destruct (shr_fexp prec emax m e l) as [mrs' e'] eqn:H1.
  assert (Hq : 0 <= shr_m mrs').
  { unfold shr_fexp, shr in H1.
    assert (H0 : 0 <= shr_m (shr_record_of_loc m l))
      by (destruct l as [|[ | | ]]; exact Hm).
    destruct (fexp prec emax (Zdigits2 m + e) - e) as [|p|p];
      injection H1 as <- _; try exact H0.
    rewrite iter_shr_1_m by exact H0.
    apply Z.div_pos; [exact H0 | apply Z.pow_pos_nonneg; lia]. }
  pose proof (round_nearest_even_le (shr_m mrs') (loc_of_shr_record mrs')) as Hr.
  destruct (shr_fexp_exact (round_nearest_even (shr_m mrs') (loc_of_shr_record mrs')) e'
              ltac:(lia)) as (n & Hn & _ & Hm'' & _).
  destruct (shr_fexp prec emax _ e' loc_Exact) as [mrs'' e''].
  cbn [fst] in Hm''.
  assert (H2 : 0 <= shr_m mrs'').
  { rewrite Hm''. apply Z.div_pos; [lia | apply Z.pow_pos_nonneg; lia]. }
  destruct (shr_m mrs'') as [|p|p]; [split; reflexivity | | lia].
  destruct (e'' <=? emax - prec); split; reflexivity.
Qed.

Lemma binary_normalize_nonnegative (m e : Z) :
  0 <= m -> nonnegative (binary_normalize prec emax m e false) = true.
Proof.
  intros Hm. unfold nonnegative. destruct m as [|p|p]; [reflexivity| |lia].
  unfold binary_normalize, binary_round.
  destruct (shl_align p e _) as [mz ez].
  destruct (binary_round_aux_sign false (Zpos mz) ez loc_Exact ltac:(lia)) as [-> ->].
  reflexivity.
Qed.

Lemma add_nonnegative (a b : number) :
  nonnegative a = true -> nonnegative b = true -> nonnegative (add a b) = true.
Proof.
  destruct a as [[|]|[|]| |[|] ma ea]; try discriminate;
    destruct b as [[|]|[|]| |[|] mb eb]; try discriminate; intros _ _;
    try reflexivity.
  unfold add. cbn [SFadd cond_Zopp].
  apply binary_normalize_nonnegative. lia.
Qed.

Lemma div_nonnegative (a : number) (m : positive) (e : Z) :
  nonnegative a = true ->
  nonnegative (div a (S754_finite false m e)) = true.
Proof.
  destruct a as [[|]|[|]| |[|] ma ea]; try discriminate; intros _; try reflexivity.
  unfold div. cbn [SFdiv xorb]. unfold SFdiv_core_binary. cbv zeta.
  set (m' := match _ - _ - _ with Z0 => Zpos ma | Zpos _ => _ | Zneg _ => 0 end).
  assert (Hm' : 0 <= m').
  { unfold m'. destruct (_ - _ - _) as [|p|p]; try lia.
    apply Z.shiftl_nonneg. lia. }
  pose proof (Z.div_pos m' (Zpos m) Hm' ltac:(lia)) as Hq. unfold Z.div in Hq.
  destruct (Z.div_eucl m' (Zpos m)) as [q r]. cbn [fst] in Hq.
  unfold nonnegative.
  destruct (binary_round_aux_sign false q
              (Z.min (fexp prec emax (Zdigits2 (Zpos ma) + ea - (Zdigits2 (Zpos m) + e)))
                 (ea - e))
              (new_location (Zpos m) r) Hq) as [-> ->].
  reflexivity.
Qed.

Lemma duration_nonnegative (channel : list number) :
  nonnegative (Playback.duration channel) = true.
Proof.
  unfold Playback.duration.
  change (of_Z 24000) with (S754_finite false 6597069766656000 (-38)).
  apply div_nonnegative. apply binary_normalize_nonnegative. lia.
Qed.

Lemma Math_max_nonnegative (a b : number) :
  nonnegative a = true -> nonnegative b = true ->
  nonnegative (Math_max a b) = true.
Proof.
  intros Ha Hb. unfold Math_max.
  assert (Hna : is_nan a = false) by (destruct a; [| |discriminate|]; reflexivity).
  assert (Hnb : is_nan b = false) by (destruct b; [| |discriminate|]; reflexivity).
  rewrite Hna, Hnb. cbn [orb].
  destruct (ltb a b); [exact Hb|]. destruct (ltb b a); [exact Ha|].
  destruct (is_zero a && is_zero b); [|exact Ha].
  destruct a as [[|]|[|]| |[|] ? ?]; try discriminate Ha;
    destruct b as [[|]|[|]| |[|] ? ?]; try discriminate Hb; reflexivity.
Qed.

(** X16. Chunks never overlap: a chunk starts no earlier than now and no
    earlier than the end of the chunk before it, and the end recorded for
    the next chunk is a time again, so that this holds along the whole
    conversation. *)
Theorem chunks_do_not_overlap {host : Playback.Base64Host} (fuel : nat)
    (audioData : option string) (currentTime nextAudioStartTimeRef : number)
    (source : Playback.Source) (next : number) :
  nonnegative currentTime = true ->
  nonnegative nextAudioStartTimeRef = true ->
  Playback.playChunk fuel audioData (Some currentTime) nextAudioStartTimeRef
  = Some (Playback.normal (Some source, next)) ->
  leb currentTime (Playback.startTime source) = true
  /\ leb nextAudioStartTimeRef (Playback.startTime source) = true
  /\ next = sourceEnd source
  /\ nonnegative next = true.
Proof.
  intros Hc Hn. unfold Playback.playChunk.
  destruct audioData as [[|c rest]|]; try discriminate.
  destruct (Playback.base64ToArrayBuffer (String c rest)) as [view|error];
    [|discriminate].
  destruct (Playback.decode fuel view) as [[float32Data|err]|]; try discriminate.
  destruct float32Data as [|s0 rest']; [discriminate|].
  cbv zeta. intros H. injection H as <- <-. cbn [Playback.startTime].
  assert (Hnan : is_nan currentTime || is_nan nextAudioStartTimeRef = false).
  { destruct currentTime; try discriminate Hc;
      destruct nextAudioStartTimeRef; try discriminate Hn; reflexivity. }
  destruct (Math_max_spec _ _ Hnan) as (H1 & H2 & _).
  repeat split; try assumption.
  apply add_nonnegative; [apply Math_max_nonnegative; assumption|].
  apply duration_nonnegative.
Qed.

Lemma chunks_do_not_overlap_witness :
  let view := [0; 128; 255; 127] in
  let source := {| Playback.channelData := map (Playback.sampleAt view) (seq 0 2);
                   Playback.startTime := of_Z 3 |} in
  leb (of_Z 1) (Playback.startTime source) = true
  /\ leb (of_Z 3) (Playback.startTime source) = true
  /\ add (of_Z 3) (Playback.duration (Playback.channelData source)) = sourceEnd source
  /\ nonnegative (add (of_Z 3) (Playback.duration (Playback.channelData source))) = true.
Proof.
  intros view source.
  apply (chunks_do_not_overlap (host := RefBase64.host) 3 (Some "AID/fw=="%string)
           (of_Z 1) (of_Z 3));
    vm_compute; reflexivity.
Defined.

(** ** The frames sent to the coach *)

(** X17. A frame sent to the coach has half the width and half the height
    of the video, rounded down, and starts with the video drawn over the
    whole of it. *)
Theorem coach_frame_is_half_size (vf : Viewfinder) (w h : Z) (f : Frame) :
  videoRef vf = Some (w, h) ->
  0 <= w < 2 ^ 32 -> 0 <= h < 2 ^ 32 ->
  videoTick vf = Some f ->
  width f = w / 2 /\ height f = h / 2
  /\ hd_error (ops f)
     = Some (drawImage videoElement (of_Z 0) (of_Z 0) (of_Z (w / 2)) (of_Z (h / 2))).
Proof.
  intros Hv Hw Hh. unfold videoTick. rewrite Hv.
  rewrite (half_size w Hw), (half_size h Hh).
  destruct (context2d vf); [|discriminate].
  intros H. injection H as <-. repeat split.
Qed.

Lemma coach_frame_is_half_size_witness :
  exists f, videoTick (hdViewfinder user) = Some f
            /\ width f = 640 /\ height f = 360.
Proof.
  eexists. split; [reflexivity|].
  split; apply (coach_frame_is_half_size (hdViewfinder user) 1280 720 _ eq_refl
                  ltac:(lia) ltac:(lia) eq_refl).
Defined.

Section Painting.

Variable Matrix : Type.
Variable translateM : number -> number -> Matrix -> Matrix.
Variable rotateM : number -> Matrix -> Matrix.
Variable scaleM : number -> number -> Matrix -> Matrix.

(** X18. In a frame sent to the coach the video and the two markers are
    painted with the transformation the canvas starts with, whatever the
    pose transform: only the pose image is painted moved, turned and
    scaled. *)
Theorem markers_and_video_untransformed (vf : Viewfinder) (f : Frame)
    (ctx : Context2D Matrix) (op : CanvasOp) (M : Matrix) :
  videoTick vf = Some f ->
  In (op, M) (painted Matrix translateM rotateM scaleM ctx (ops f)) ->
  match op with
  | drawImage poseImage _ _ _ _ => True
  | _ => M = currentTransform Matrix ctx
  end.
Proof.
  unfold videoTick. destruct (videoRef vf) as [[w h]|]; [|discriminate].
  destruct (context2d vf); [|discriminate].
  intros H. injection H as <-. cbn [ops].
  destruct (poseImageRef vf); cbn; intros Hin;
    repeat (destruct Hin as [Hin|Hin]; [injection Hin as <- <-; reflexivity || exact I|]);
    destruct Hin.
Qed.

End Painting.

Lemma markers_and_video_untransformed_witness :
  0 = currentTransform Z {| currentTransform := 0; stateStack := [] |}.
Proof.
  apply (markers_and_video_untransformed Z (fun _ _ m => m + 1) (fun _ m => m + 2)
           (fun _ _ m => m + 3) (hdViewfinder user) _
           {| currentTransform := 0; stateStack := [] |}
           (fillText "R" (of_Z 20) (of_Z 180)) 0 eq_refl).
  vm_compute. do 2 right. left. reflexivity.
Defined.

(** ** The caption of the coach *)

Lemma string_append_assoc (a b c : string) :
  ((a ++ b) ++ c = a ++ (b ++ c))%string.
Proof. induction a as [|ch a IH]; simpl; congruence. Qed.

Lemma string_append_nil_r (a : string) : (a ++ EmptyString = a)%string.
Proof. induction a as [|ch a IH]; simpl; congruence. Qed.

Lemma concat_firstn_S (t : string) (texts : list string) (k : nat) :
  String.concat EmptyString (firstn (S k) (t :: texts))
  = (t ++ String.concat EmptyString (firstn k texts))%string.
Proof.
  cbn [firstn]. destruct (firstn k texts) as [|u rest] eqn:H.
  - simpl. symmetry. apply string_append_nil_r.
  - reflexivity.
Qed.

(** Tokens appended to a caption that is not a placeholder. *)
Lemma appendText_all (texts : list string) (acc : string) :
  (forall k, (k < List.length texts)%nat ->
     let shown := (acc ++ String.concat EmptyString (firstn k texts))%string in
     shown <> Coach.OBSERVING /\ shown <> Coach.CONNECTING) ->
  fold_left (fun prev t => Coach.appendText t prev) texts (Some acc)
  = Some (acc ++ String.concat EmptyString texts)%string.
Proof.
  revert acc. induction texts as [|t texts IH]; intros acc Hk.
  - simpl. rewrite string_append_nil_r. reflexivity.
  - cbn [fold_left]. unfold Coach.appendText at 2.
    destruct (Hk 0%nat ltac:(simpl; lia)) as [H1 H2].
    cbv zeta in H1, H2. simpl in H1, H2. rewrite string_append_nil_r in H1, H2.
    apply String.eqb_neq in H1, H2. rewrite H1, H2. cbn [orb].
    rewrite IH.
    + rewrite string_append_assoc. f_equal.
      destruct texts; [simpl; rewrite string_append_nil_r|]; reflexivity.
    + intros k Hlt. cbv zeta. rewrite string_append_assoc.
      rewrite <- concat_firstn_S. apply (Hk (S k)). simpl. lia.
Qed.

Lemma onmessage_text (st : Coach.State) (msg : Coach.Message) (t : string) :
  Coach.messageText msg = Some t -> t <> EmptyString ->
  Coach.onmessage st msg
  = {| Coach.coachInstruction := Coach.appendText t (Coach.coachInstruction st);
       Coach.instructionTimeout := true |}.
Proof.
  intros Hm Ht. unfold Coach.onmessage. rewrite Hm.
  destruct t; [contradiction|reflexivity].
Qed.

(** X19. The caption grows with the tokens of the coach: starting from a
    placeholder or from nothing, messages that carry the non-empty texts
    [t1 ... tn] leave the caption [t1 ++ ... ++ tn] with its timer running,
    as long as no caption shown on the way reads exactly as one of the two
    placeholders (such a caption would be replaced, not extended). *)
Theorem caption_accumulates (st : Coach.State) (msgs : list Coach.Message)
    (texts : list string) :
  (Coach.coachInstruction st = None
   \/ Coach.coachInstruction st = Some Coach.OBSERVING
   \/ Coach.coachInstruction st = Some Coach.CONNECTING) ->
  map Coach.messageText msgs = map Some texts ->
  texts <> [] ->
  Forall (fun t => t <> EmptyString) texts ->
  (forall k, (0 < k < List.length texts)%nat ->
     String.concat EmptyString (firstn k texts) <> Coach.OBSERVING
     /\ String.concat EmptyString (firstn k texts) <> Coach.CONNECTING) ->
  fold_left Coach.onmessage msgs st
  = {| Coach.coachInstruction := Some (String.concat EmptyString texts);
       Coach.instructionTimeout := true |}.
Proof.
  intros Hst Hmsgs Hne Htexts Hk.
  assert (Hfold : forall msgs texts st,
            map Coach.messageText msgs = map Some texts ->
            Forall (fun t => t <> EmptyString) texts -> texts <> [] ->
            fold_left Coach.onmessage msgs st
            = {| Coach.coachInstruction :=
                   fold_left (fun prev t => Coach.appendText t prev) texts
                     (Coach.coachInstruction st);
                 Coach.instructionTimeout := true |}).
  { clear. induction msgs as [|m msgs IH]; intros [|t texts] st Hm Hf Hne;
      try discriminate; [contradiction|].
    injection Hm as Hm Hrest. inversion Hf as [|? ? Ht Hf']. subst.
    cbn [fold_left]. rewrite (onmessage_text st m t Hm Ht).
    destruct texts as [|t' texts].
    - destruct msgs; [reflexivity|discriminate].
    - rewrite (IH (t' :: texts)) by (assumption || discriminate). reflexivity. }
  rewrite (Hfold msgs texts st Hmsgs Htexts Hne). f_equal.
  destruct texts as [|t texts]; [contradiction|].
  cbn [fold_left].
  assert (Hfirst : Coach.appendText t (Coach.coachInstruction st) = Some t).
  { destruct Hst as [-> | [-> | ->]]; reflexivity. }
  rewrite Hfirst. rewrite appendText_all.
  - f_equal. destruct texts; [simpl; apply string_append_nil_r | reflexivity].
  - intros k Hlt. cbv zeta. rewrite <- concat_firstn_S.
    apply Hk. simpl. lia.
Qed.

Lemma caption_accumulates_witness :
  let say t := {| Coach.parts := Some [{| Coach.text := Some t |}];
                  Coach.outputTranscription := None |} in
  fold_left Coach.onmessage [say "舉起"%string; say "右手"%string]
    {| Coach.coachInstruction := Some Coach.OBSERVING;
       Coach.instructionTimeout := false |}
  = {| Coach.coachInstruction := Some "舉起右手"%string;
       Coach.instructionTimeout := true |}.
Proof.
  intros say.
  apply (caption_accumulates _ [say "舉起"%string; say "右手"%string]
           ["舉起"; "右手"]%string).
  - right. left. reflexivity.
  - reflexivity.
  - discriminate.
  - repeat constructor; discriminate.
  - intros [|[|k]] Hk; simpl in Hk; try lia. split; discriminate.
Defined.

(** ** Asking for a pose *)

(** X20. A request for a pose always releases the busy flag it raised, and
    it either succeeds, replacing the pose by the generated image and
    resetting the transform to the initial one without any error, or fails,
    leaving pose and transform alone and showing one error that is cleared
    after three seconds. A request made without video or while another is
    running does nothing at all. *)
Theorem generate_pose_outcome (env : PoseGuide.Environment) :
  let effects := PoseGuide.handleGeneratePose env in
  (effects = []
   <-> PoseGuide.videoRef env = None \/ PoseGuide.isGeneratingPose env = true)
  /\ (effects <> [] ->
      hd_error effects = Some (PoseGuide.setIsGeneratingPose true)
      /\ last effects (PoseGuide.setIsGeneratingPose true)
         = PoseGuide.setIsGeneratingPose false
      /\ ((exists pose url,
             PoseGuide.poses effects = [pose]
             /\ PoseGuide.imageUrl pose = Some url
             /\ PoseGuide.transforms effects = [INITIAL_TRANSFORM]
             /\ PoseGuide.errors effects = [])
          \/ (exists message,
                PoseGuide.poses effects = []
                /\ PoseGuide.transforms effects = []
                /\ PoseGuide.errors effects = [Some message]
                /\ In (PoseGuide.setErrorAfter 3000 None) effects))).
Proof.
  intros effects. subst effects. unfold PoseGuide.handleGeneratePose.
  destruct (PoseGuide.videoRef env) as [[w h]|].
  2: { split; [split; auto | intros H; contradiction]. }
  destruct (PoseGuide.isGeneratingPose env).
  { split; [split; auto | intros H; contradiction]. }
  split.
  { split; [discriminate | intros [H|H]; discriminate]. }
  intros _.
  destruct (PoseGuide.context2d env); cbn [negb].
  2: { repeat split. right. eexists. repeat split. simpl. auto. }
  destruct (PoseGuide.response env) as [parts|].
  2: { repeat split. right. eexists. repeat split. simpl. auto. }
  destruct (PoseGuide.extractImage parts) as [[|c rest]|].
  1, 3: repeat split; right; eexists; repeat split; simpl; auto.
  destruct (PoseGuide.transparent env (String c rest)) as [url|].
  - repeat split. left. do 2 eexists. repeat split.
  - repeat split. right. eexists. repeat split. simpl. auto.
Qed.

(** ** The pose image the coach is shown *)

(** X21. The image composited into the frames of the coach is the one of
    the active pose once it has loaded; but nothing cancels a load, so an
    image that finishes loading after the pose was cleared is composited
    with no pose active, and one that finishes after a newer image replaces
    it. *)
Theorem pose_image_may_be_stale (st : PoseImage.State) (pose newer : PoseGuide.Pose)
    (url url' : string) :
  PoseGuide.imageUrl pose = Some url -> url <> EmptyString ->
  PoseGuide.imageUrl newer = Some url' -> url' <> EmptyString -> url' <> url ->
  let shown events := PoseImage.poseImageRef (PoseImage.run st events) in
  let active events := PoseImage.activePose (PoseImage.run st events) in
  shown [PoseImage.activePoseChanged (Some pose); PoseImage.onload url] = Some url
  /\ shown [PoseImage.activePoseChanged None] = None
  /\ shown [PoseImage.activePoseChanged (Some pose);
            PoseImage.activePoseChanged None; PoseImage.onload url] = Some url
  /\ active [PoseImage.activePoseChanged (Some pose);
             PoseImage.activePoseChanged None; PoseImage.onload url] = None
  /\ shown [PoseImage.activePoseChanged (Some pose);
            PoseImage.activePoseChanged (Some newer);
            PoseImage.onload url'; PoseImage.onload url] = Some url
  /\ active [PoseImage.activePoseChanged (Some pose);
             PoseImage.activePoseChanged (Some newer);
             PoseImage.onload url'; PoseImage.onload url] = Some newer.
Proof.
  intros Hu Hne Hu' Hne' Hdiff shown active. subst shown active.
  destruct pose as [i n sp vb iu]. destruct newer as [i' n' sp' vb' iu'].
  cbn [PoseGuide.imageUrl] in Hu, Hu'. subst iu iu'.
  destruct url as [|c rest]; [contradiction|].
  destruct url' as [|c' rest']; [contradiction|].
  unfold PoseImage.run. cbn [fold_left PoseImage.step PoseImage.loading existsb
    PoseImage.poseImageRef PoseImage.activePose PoseImage.removeFirst].
  rewrite !String.eqb_refl. cbn [orb PoseImage.poseImageRef PoseImage.activePose
    PoseImage.loading PoseImage.removeFirst existsb].
  rewrite !String.eqb_refl.
  assert (Hd : String.eqb (String c rest) (String c' rest') = false).
  { apply String.eqb_neq. congruence. }
  rewrite ?Hd, ?String.eqb_refl, ?orb_true_r.
  cbn [orb PoseImage.poseImageRef PoseImage.activePose]. repeat split.
Qed.

Lemma pose_image_may_be_stale_witness :
  let pose := {| PoseGuide.id := "ai-1"; PoseGuide.name := "AI Generated";
                 PoseGuide.svgPath := None; PoseGuide.viewBox := None;
                 PoseGuide.imageUrl := Some "data:a" |}%string in
  let st := {| PoseImage.activePose := None; PoseImage.poseImageRef := None;
               PoseImage.loading := [] |} in
  PoseImage.poseImageRef
    (PoseImage.run st [PoseImage.activePoseChanged (Some pose);
                       PoseImage.activePoseChanged None;
                       PoseImage.onload "data:a"%string])
  = Some "data:a"%string.
Proof.
  intros pose st.
  refine (proj1 (proj2 (proj2
    (pose_image_may_be_stale st pose
       {| PoseGuide.id := "ai-2"; PoseGuide.name := "AI Generated";
          PoseGuide.svgPath := None; PoseGuide.viewBox := None;
          PoseGuide.imageUrl := Some "data:b" |}%string
       "data:a"%string "data:b"%string eq_refl _ eq_refl _ _))));
    discriminate.
Defined.
